(** * hot-potato-charm: the token forwarding engine of [src/charm.py]

    A shallow embedding of [Forward.forward] and of the status strings it
    publishes, followed by the properties of the hand-off protocol.

    Conventions of the embedding.
    - A token is the Python dict with the five keys the charm reads and
      writes; it is a record here.  [times_passed] is a Python int ([Z]).
    - [time_elapsed], [timestamp] and [delay] are Python numbers holding
      seconds.  They are embedded as exact rationals ([Q]): every finite
      binary64 value is a rational, comparisons and the [.2f] formatting are
      exact on it, and only the rounding of [+] and [-] (and the special
      values inf and nan) is left out.
    - [random.randint] and [time.time] are oracles: the k-th call reads the
      k-th entry of a stream given once and for all.
    - The token is one mutable object shared with the caller, so it lives in
      the state that [forward] threads; what [forward] returns is either
      [None] or that same object.
    - [Forward.forward] calls itself; the embedding recurses on the number
      of nested calls the interpreter still allows and raises
      [RecursionError] when none is left.
    - The handlers of [HotPotatoCharm] are functions of the charm (stored
      bucket, unit, "players" relations) to an outcome.  The [json] module
      behind [_Codec] is an explicit argument of the handlers that encode
      or decode; decoded texts are tokens, and the "delay" option of the
      configuration is a number.
    - [py_json] is Python's [json] on tokens, written after the
      documentation of the module: [json.dumps] with its default
      separators and [ensure_ascii], numbers printed as [repr] prints them,
      and [json.loads] with the grammar of JSON strings and numbers.  The
      digits of a time are those of its exact value. *)

From Stdlib Require Import ZArith QArith Qabs String Ascii List Bool Lia Lqa.
From Stdlib Require Import DecimalString Qreduction Qpower.
From Stdlib Require DecimalFacts DecimalPos DecimalN.
Import ListNotations.

Local Open Scope string_scope.
Local Open Scope Z_scope.

(** ** Data *)

(** The token dict: keys [message], [holder], [times_passed],
    [time_elapsed], [timestamp]. *)
Record Token : Type := mkToken
  { message : string;
    holder : string;
    times_passed : Z;
    time_elapsed : Q;
    timestamp : Q }.

(** [ops.model.ActiveStatus(message='')]. *)
Inductive Status : Type :=
  | ActiveStatus (msg : string).

(** [ops.model.Unit]: the name is fixed, the status is assigned to. *)
Record Unit : Type := mkUnit
  { name : string;
    status : Status }.

(** Exceptions that can leave [forward]. *)
Inductive Exn : Type :=
  | ValueError       (* random.randint over an empty range *)
  | IndexError       (* list index out of range *)
  | RecursionError.  (* maximum recursion depth exceeded *)

Inductive Result (A : Type) : Type :=
  | Ok (a : A)
  | Raised (e : Exn).
Arguments Ok {A} a.
Arguments Raised {A} e.

(** What an observer sees, in order. *)
Inductive Event : Type :=
  | EvStatus (st : Status)   (* unit.status = st *)
  | EvSleep (secs : Q)       (* time.sleep(secs) *)
  | EvLog (t : Token).       (* logger.info(f'Current token {token}:') *)

(** The store: the shared token object, the unit, and how many draws and
    clock readings have been consumed. *)
Record State : Type := mkState
  { token : Token;
    self_unit : Unit;
    rand_calls : nat;
    time_calls : nat }.

(** ** Formatting *)

(** [str(n)] for a Python int. *)
Definition str_int (z : Z) : string := NilZero.string_of_int (Z.to_int z).

(** Nearest integer, ties to even. *)
Definition round_half_even (q : Q) : Z :=
  let n := Qnum q in
  let d := Z.pos (Qden q) in
  let fl := n / d in
  let r2 := 2 * (n mod d) in
  if r2 <? d then fl
  else if d <? r2 then fl + 1
  else if Z.even fl then fl else fl + 1.

Definition Qlt_bool (x y : Q) : bool := negb (Qle_bool y x).

(** [format(x, '.2f')]: sign, integer part, point, two digits. *)
Definition format_2f (q : Q) : string :=
  let c := round_half_even (Qabs q * 100) in
  (if Qlt_bool q 0 then "-" else "")
    ++ str_int (c / 100) ++ "."
    ++ str_int ((c mod 100) / 10) ++ str_int (c mod 10).

(** The pieces of an f-string: literal text and replacement fields. *)
Inductive Piece : Type :=
  | Lit (s : string)
  | FStr (s : string)    (* {x}     with x a str *)
  | FInt (z : Z)         (* {x}     with x an int *)
  | F2f (q : Q).         (* {x:.2f} *)

Definition render_piece (p : Piece) : string :=
  match p with
  | Lit s => s
  | FStr s => s
  | FInt z => str_int z
  | F2f q => format_2f q
  end.

Fixpoint render (ps : list Piece) : string :=
  match ps with
  | [] => ""
  | p :: ps' => render_piece p ++ render ps'
  end.

(** Lines 36-39. *)
Definition completion_status (tok : Token) : Status :=
  ActiveStatus (render
    [ Lit "Maximum passes reached. ";
      Lit "Time to completion is "; F2f (time_elapsed tok); Lit " seconds." ]).

(** Lines 45-50. *)
Definition hop_status (tok : Token) : Status :=
  ActiveStatus (render
    [ Lit "M: "; FStr (message tok); Lit ", ";
      Lit "H: "; FStr (holder tok); Lit ", ";
      Lit "P: "; FInt (times_passed tok); Lit ", ";
      Lit "T: "; F2f (time_elapsed tok) ]).

(** Line 58: [ActiveStatus()]. *)
Definition idle_status : Status := ActiveStatus "".

(** The status formats in the words of the specification, to be compared
    with the f-strings above. *)
Definition spec_active_format (tok : Token) : string :=
  "M: " ++ message tok ++ ", H: " ++ holder tok
    ++ ", P: " ++ str_int (times_passed tok)
    ++ ", T: " ++ format_2f (time_elapsed tok).

Definition spec_terminated_format (tok : Token) : string :=
  "Maximum passes reached. Time to completion is "
    ++ format_2f (time_elapsed tok) ++ " seconds.".

(** One of the three formats. *)
Definition status_format (st : Status) : Prop :=
  (exists t, st = ActiveStatus (spec_active_format t)) \/
  (exists t, st = ActiveStatus (spec_terminated_format t)) \/
  st = ActiveStatus "".

(** A decimal digit character. *)
Definition is_digit (c : ascii) : bool :=
  ((48 <=? nat_of_ascii c) && (nat_of_ascii c <=? 57))%nat.

(** A fixed-point numeral with exactly two digits after the point, and the
    number of hundredths it denotes. *)
Definition two_decimals (str : string) (hundredths : Z) : Prop :=
  exists (ip : Z) (c1 c2 : ascii),
    0 <= ip /\ is_digit c1 = true /\ is_digit c2 = true /\
    str = str_int ip ++ "." ++ String c1 (String c2 "") /\
    hundredths
      = 100 * ip + 10 * (Z.of_nat (nat_of_ascii c1) - 48)
        + (Z.of_nat (nat_of_ascii c2) - 48).

(** ** The effect monad: state, exceptions, and an event log *)

Definition M (A : Type) : Type := State -> Result A * State * list Event.

(** The three parts of what a run yields. *)
Definition result_of {A} (o : Result A * State * list Event) : Result A := fst (fst o).
Definition state_of {A} (o : Result A * State * list Event) : State := snd (fst o).
Definition events_of {A} (o : Result A * State * list Event) : list Event := snd o.

Definition ret {A} (a : A) : M A := fun s => (Ok a, s, []).

Definition raise {A} (e : Exn) : M A := fun s => (Raised e, s, []).

Definition bind {A B} (m : M A) (f : A -> M B) : M B := fun s =>
  match m s with
  | (Ok a, s1, t1) =>
      match f a s1 with
      | (r, s2, t2) => (r, s2, (t1 ++ t2)%list)
      end
  | (Raised e, s1, t1) => (Raised e, s1, t1)
  end.

Declare Scope py_scope.
Delimit Scope py_scope with py.
Notation "x <- c1 ;; c2" := (bind c1 (fun x => c2))
  (at level 61, c1 at next level, right associativity) : py_scope.
Notation "c1 ;; c2" := (bind c1 (fun _ => c2))
  (at level 61, right associativity) : py_scope.
Local Open Scope py_scope.

Definition emit (e : Event) : M unit := fun s => (Ok tt, s, [e]).

Definition get_token : M Token := fun s => (Ok (token s), s, []).

Definition put_token (t : Token) : M unit := fun s =>
  (Ok tt, mkState t (self_unit s) (rand_calls s) (time_calls s), []).

Definition get_unit : M Unit := fun s => (Ok (self_unit s), s, []).

(** [unit.status = st] *)
Definition set_status (st : Status) : M unit := fun s =>
  (Ok tt,
   mkState (token s) (mkUnit (name (self_unit s)) st) (rand_calls s) (time_calls s),
   [EvStatus st]).

(** Assignments to the keys of the token. *)
Definition set_holder (h : string) (t : Token) : Token :=
  mkToken (message t) h (times_passed t) (time_elapsed t) (timestamp t).
Definition set_times_passed (n : Z) (t : Token) : Token :=
  mkToken (message t) (holder t) n (time_elapsed t) (timestamp t).
Definition set_time_elapsed (q : Q) (t : Token) : Token :=
  mkToken (message t) (holder t) (times_passed t) q (timestamp t).
Definition set_timestamp (q : Q) (t : Token) : Token :=
  mkToken (message t) (holder t) (times_passed t) (time_elapsed t) q.

Definition modify_token (f : Token -> Token) : M unit :=
  t <- get_token ;; put_token (f t).

(** [l[i]] for a Python list: a negative index counts from the end. *)
Definition list_getitem {A} (l : list A) (i : Z) : M A :=
  let n := Z.of_nat (length l) in
  let j := if i <? 0 then i + n else i in
  if (j <? 0) || (n <=? j) then raise IndexError
  else match nth_error l (Z.to_nat j) with
       | Some x => ret x
       | None => raise IndexError
       end.

(** ** One pass through [forward], in closed form *)

(** The unit after [unit.status = st]. *)
Definition with_status (st : Status) (s : State) : State :=
  mkState (token s) (mkUnit (name (self_unit s)) st) (rand_calls s) (time_calls s).

(** The token after lines 51-55, with [p] the selected peer and [now] the
    clock reading. *)
Definition hop_token (p : string) (now : Q) (t : Token) : Token :=
  mkToken (message t) p (times_passed t + 1)
          (time_elapsed t + (now - timestamp t))%Q now.

(** What lines 45-59 publish. *)
Definition hop_events (delay : Q) (before after : Token) : list Event :=
  EvStatus (hop_status before)
    :: (if Qlt_bool 0 delay then [EvSleep delay] else [])
    ++ [EvStatus idle_status; EvLog after].

(** The tokens logged by a run, oldest first. *)
Fixpoint logged (tr : list Event) : list Token :=
  match tr with
  | [] => []
  | EvLog t :: tr' => t :: logged tr'
  | _ :: tr' => logged tr'
  end.

(** The statuses published by a run, oldest first. *)
Fixpoint statuses (tr : list Event) : list Status :=
  match tr with
  | [] => []
  | EvStatus st :: tr' => st :: statuses tr'
  | _ :: tr' => statuses tr'
  end.

(** One completed hop, from the token before it to the token after it:
    one more pass, and no less time elapsed unless the clock reading
    stamped on the token is earlier than the stamp it replaces. *)
Definition pass_step (t t' : Token) : Prop :=
  times_passed t' = times_passed t + 1 /\
  ((timestamp t <= timestamp t')%Q -> (time_elapsed t <= time_elapsed t')%Q).

(** [linked R t l]: [R] relates each element of [t :: l] to the next. *)
Fixpoint linked (R : Token -> Token -> Prop) (t : Token) (l : list Token) : Prop :=
  match l with
  | [] => True
  | t' :: l' => R t t' /\ linked R t' l'
  end.

(** The pauses of a run, oldest first. *)
Fixpoint sleeps (tr : list Event) : list Q :=
  match tr with
  | [] => []
  | EvSleep secs :: tr' => secs :: sleeps tr'
  | _ :: tr' => sleeps tr'
  end.

(** ** The charm around the engine: data *)

(** A relation data bag: a dict from str to str, in insertion order. *)
Definition Dict : Type := list (string * string).

(** [d.get(k)]; [None] is also the answer to [k not in d]. *)
Fixpoint dict_get (d : Dict) (k : string) : option string :=
  match d with
  | [] => None
  | (k', v) :: d' => if String.eqb k' k then Some v else dict_get d' k
  end.

(** [d.update({k: v})] *)
Fixpoint dict_set (d : Dict) (k v : string) : Dict :=
  match d with
  | [] => [(k, v)]
  | (k', v') :: d' =>
      if String.eqb k' k then (k', v) :: d' else (k', v') :: dict_set d' k v
  end.

(** [ops.model.Relation]: the names of the remote units, in the order in
    which [r.units] is iterated, and one data bag per unit. *)
Record Relation : Type := mkRelation
  { units : list string;
    data : string -> Dict }.

(** [r.data[u].update({"token": v})] *)
Definition write_token (r : Relation) (u v : string) : Relation :=
  mkRelation (units r)
    (fun x => if String.eqb x u then dict_set (data r u) "token" v else data r x).

(** [self._stored.bucket], a dict with the keys "passes" and "delay". *)
Record Bucket : Type := mkBucket
  { bucket_passes : option Z;
    bucket_delay : Q }.

(** Lines 109-114: the default of [set_default]. *)
Definition default_bucket : Bucket := mkBucket None 0.

(** [self.config]: "max-passes" may be unset, "delay" is a number. *)
Record Config : Type := mkConfig
  { config_max_passes : option Z;
    config_delay : Q }.

(** The charm: its stored state, its unit, the relations named "players",
    and how far the random source and the clock have been consumed. *)
Record Charm : Type := mkCharm
  { stored : Bucket;
    this_unit : Unit;
    players : list Relation;
    rand_used : nat;
    time_used : nat }.

(** The messages of [logger.info] in the handlers. *)
Inductive Info : Type :=
  | InfoUpdatingPasses (v : option Z)  (* f"Updating max passes to {max_passes}." *)
  | InfoUpdatingDelay (v : Q)          (* f"Updating total delay to {delay}." *)
  | InfoHello (me other : string)      (* f"{self.unit.name}: Hello {event.unit.name}!" *)
  | InfoGoodbye (me other : string)    (* f"{self.unit.name}: Goodbye {event.unit.name}!" *)
  | InfoNoToken       (* "Key 'token' is not present or is empty in message." *)
  | InfoConstructing. (* "Constructing message and mapping peer topology." *)

(** What a handler lets out: its own log lines and what the engine
    publishes. *)
Inductive Note : Type :=
  | NoteInfo (i : Info)
  | NoteEngine (e : Event).

(** Exceptions that can leave a handler. *)
Inductive CharmExn : Type :=
  | Builtin (e : Exn)
  | JSONDecodeError.

(** How a handler ends: the exception that left it, if any, what it
    leaves behind, and what it let out. *)
Record Outcome (S : Type) : Type := mkOutcome
  { raised : option CharmExn;
    after : S;
    notes : list Note }.
Arguments mkOutcome {S} raised after notes.
Arguments raised {S} o.
Arguments after {S} o.
Arguments notes {S} o.

(** The [json] module on tokens: [json.dumps], and [json.loads], which
    answers [None] where it raises. *)
Record Json : Type := mkJson
  { json_dumps : Token -> string;
    json_loads : string -> option Token }.

(** Lines 69-74: [_Codec]. *)
Definition dumps (json : Json) (m : Token) : string := json_dumps json m.

Definition loads (json : Json) (m : string) : option Token := json_loads json m.

(** [a != b] on values that are [None] or an int. *)
Definition opt_int_ne (a b : option Z) : bool :=
  match a, b with
  | None, None => false
  | Some x, Some y => negb (x =? y)
  | _, _ => true
  end.

(** Lines 119-129: [_on_config_changed]. *)
Definition _on_config_changed (cfg : Config) (c : Charm) : Outcome Charm :=
  let max_passes := config_max_passes cfg in
  let delay := config_delay cfg in
  let storage := stored c in
  let '(storage1, log1) :=
    if opt_int_ne max_passes (bucket_passes storage)
    then (mkBucket max_passes (bucket_delay storage),
          [NoteInfo (InfoUpdatingPasses max_passes)])
    else (storage, []) in
  let '(storage2, log2) :=
    if negb (Qeq_bool delay (bucket_delay storage1))
    then (mkBucket (bucket_passes storage1) delay,
          [NoteInfo (InfoUpdatingDelay delay)])
    else (storage1, []) in
  mkOutcome None
    (mkCharm storage2 (this_unit c) (players c) (rand_used c) (time_used c))
    (log1 ++ log2)%list.

(** Lines 116-117: [_on_install]. *)
Definition _on_install (c : Charm) : Outcome Charm :=
  mkOutcome None
    (mkCharm (stored c) (mkUnit (name (this_unit c)) idle_status)
             (players c) (rand_used c) (time_used c))
    [].

(** Lines 131-133: [_on_players_relation_join]. *)
Definition _on_players_relation_join (event_unit : string) (c : Charm)
    : Outcome Charm :=
  mkOutcome None c [NoteInfo (InfoHello (name (this_unit c)) event_unit)].

(** Lines 135-137: [_on_players_relation_departed]. *)
Definition _on_players_relation_departed (event_unit : string) (c : Charm)
    : Outcome Charm :=
  mkOutcome None c [NoteInfo (InfoGoodbye (name (this_unit c)) event_unit)].

(** Lines 147 and 169: [[self.unit.name] + [u.name for u in r.units]]. *)
Definition peers_of (c : Charm) (r : Relation) : list string :=
  name (this_unit c) :: units r.

(** The store the engine runs in, and the charm it leaves. *)
Definition engine_state (c : Charm) (t : Token) : State :=
  mkState t (this_unit c) (rand_used c) (time_used c).

Definition absorb (c : Charm) (s : State) : Charm :=
  mkCharm (stored c) (self_unit s) (players c) (rand_calls s) (time_calls s).

(** The token slot of the store before line 170 has built the token. *)
Definition no_token : Token := mkToken "" "" 0 0 0.

(** ** The [json] module on tokens

    [json.dumps] and [json.loads] with their default arguments, after the
    documentation of the module and of [float.__repr__], on the values a
    token is made of.  A character of a string is a code point below 256.
    A time is printed as the float it is: the digits are those of its exact
    value, where CPython prints the shortest digits that read back as the
    same binary64; the place of the point, the ".0" of a whole value and
    the switch to the exponent form are those of [repr]. *)




(** *** Encoding *)








(** The decimal digits of a natural number. *)
Definition digits_of (m : Z) : string :=
  NilEmpty.string_of_uint (N.to_uint (Z.to_N m)).

(** The least [j >= k] within [fuel] steps such that [d] divides [10^j]. *)
Fixpoint find_scale (fuel k : nat) (d : Z) : option nat :=
  if (10 ^ Z.of_nat k) mod d =? 0 then Some k
  else match fuel with
       | O => None
       | S f => find_scale f (S k) d
       end.

Fixpoint strip_zeros (fuel : nat) (m e : Z) : Z * Z :=
  match fuel with
  | O => (m, e)
  | S f => if (m mod 10 =? 0) && negb (m =? 0)
           then strip_zeros f (m / 10) (e + 1) else (m, e)
  end.

(** [|q|] as [m * 10^e] with [m] a natural number that does not end in 0,
    when [q] is a decimal fraction (as every finite binary64 is). *)
Definition decimal_of (q : Q) : option (Z * Z) :=
  let n := Z.abs (Qnum q) in
  let d := Z.pos (Qden q) in
  match find_scale (Z.to_nat (Z.log2 d)) 0 d with
  | None => None
  | Some k =>
      let m := n * (10 ^ Z.of_nat k / d) in
      Some (strip_zeros (S (Z.to_nat (Z.log2 m))) m (- Z.of_nat k))
  end.











(** *** Decoding *)




























(** *** Texts and times, for the statements *)








(** A time the codec carries is a float, and every finite binary64 is a
    decimal fraction. *)
Definition decimal (q : Q) : Prop := decimal_of q <> None.



(** ** Sample inputs

    The scenarios of the specification: units "A" and "B", a token carrying
    "hi", a random source that always yields the same raw value, and a
    clock that starts at [t0] seconds and advances by one second from one
    reading to the next. *)

Definition always (raw : nat) : nat -> nat := fun _ => raw.

Definition ticking (t0 : Z) : nat -> Q := fun k => inject_Z (t0 + Z.of_nat k).

(** Unit "A" receives a token held by [h], after [passes] passes, last
    stamped at [ts]. *)
Definition received (h : string) (passes : Z) (ts : Q) : State :=
  mkState (mkToken "hi" h passes 0 ts) (mkUnit "A" idle_status) 0 0.

(** A stand-in for [json] on the sample tokens: the text of a token is
    the name of its holder, and "?" does not decode. *)
Definition toy_json : Json :=
  mkJson holder
         (fun text => if String.eqb text "?" then None
                      else Some (mkToken "hi" text 0 0 1000)).

(** A "players" relation with the remote units [others], in which the bag
    of "B" holds [text] under "token". *)
Definition sample_relation (others : list string) (text : string) : Relation :=
  mkRelation others
    (fun u => if String.eqb u "B" then [("token", text)] else []).

(** The charm of unit "A" with pass limit [limit], no delay, and the one
    relation [r]. *)
Definition sample_charm (limit : option Z) (r : Relation) : Charm :=
  mkCharm (mkBucket limit 0) (mkUnit "A" idle_status) [r] 0 0.


Section Engine.

(** The raw value behind the k-th call of [random.randint]. *)
Variable rnd : nat -> nat.
(** The value of the k-th call of [time.time()]. *)
Variable clk : nat -> Q.

(** [random.randint(a, b)]: an integer N with a <= N <= b; an empty
    range raises ValueError. *)
Definition randint (a b : Z) : M Z := fun s =>
  if b <? a then (Raised ValueError, s, [])
  else (Ok (a + Z.of_nat (rnd (rand_calls s)) mod (b - a + 1)),
        mkState (token s) (self_unit s) (S (rand_calls s)) (time_calls s),
        []).

(** [time.time()] *)
Definition time_time : M Q := fun s =>
  (Ok (clk (time_calls s)),
   mkState (token s) (self_unit s) (rand_calls s) (S (time_calls s)),
   []).

(** [time.sleep(secs)] *)
Definition time_sleep (secs : Q) : M unit := emit (EvSleep secs).

(** [logger.info(f'Current token {token}:')] *)
Definition log_token : M unit := t <- get_token ;; emit (EvLog t).

(** Line 35: the test guarded by [max_passes is not None]. *)
Definition passes_reached (max_passes : option Z) (tok : Token) (u : Unit) : bool :=
  match max_passes with
  | Some n => (times_passed tok =? n) && String.eqb (holder tok) (name u)
  | None => false
  end.

(** The body of [Forward.forward]; [self_call] is the call of line 63. *)
Definition forward_body (self_call : M (option Token))
    (peers : list string) (delay : Q) (max_passes : option Z)
    : M (option Token) :=
  tok <- get_token ;;
  u <- get_unit ;;
  if passes_reached max_passes tok u then
    set_status (completion_status tok) ;;
    ret None
  else if negb (String.eqb (holder tok) (name u)) then
    ret None
  else
    set_status (hop_status tok) ;;
    i <- randint 0 (Z.of_nat (length peers) - 1) ;;
    p <- list_getitem peers i ;;
    modify_token (set_holder p) ;;
    modify_token (fun t => set_times_passed (times_passed t + 1) t) ;;
    now <- time_time ;;
    modify_token (fun t =>
      set_time_elapsed (time_elapsed t + (now - timestamp t))%Q t) ;;
    modify_token (set_timestamp now) ;;
    (if Qlt_bool 0 delay then time_sleep delay else ret tt) ;;
    set_status idle_status ;;
    log_token ;;
    tok' <- get_token ;;
    if String.eqb (holder tok') (name u) then self_call
    else ret (Some tok').

(** [Forward.forward(token, peers, unit, delay=delay, max_passes=max_passes)],
    with [depth] nested calls still allowed below this one. *)
Fixpoint forward (depth : nat) (peers : list string) (delay : Q)
    (max_passes : option Z) : M (option Token) :=
  forward_body
    (match depth with
     | O => raise RecursionError
     | S d => forward d peers delay max_passes
     end)
    peers delay max_passes.

(** *** One pass through [forward_body], in closed form *)

(** The peer that line 51 selects in state [s] (for a non-empty list). *)
Definition pick (peers : list string) (s : State) : string :=
  nth (rnd (rand_calls s) mod length peers)%nat peers "".

(** The state after lines 45-59. *)
Definition hop_state (peers : list string) (s : State) : State :=
  mkState (hop_token (pick peers s) (clk (time_calls s)) (token s))
          (mkUnit (name (self_unit s)) idle_status)
          (S (rand_calls s)) (S (time_calls s)).

(** The five ways through [forward_body], in the order of the source. *)
Inductive body_view (self_call : M (option Token)) (peers : list string)
    (delay : Q) (max_passes : option Z) (s : State)
    : Result (option Token) * State * list Event -> Prop :=
  | view_completed :
      passes_reached max_passes (token s) (self_unit s) = true ->
      body_view self_call peers delay max_passes s
        (Ok None, with_status (completion_status (token s)) s,
         [EvStatus (completion_status (token s))])
  | view_not_holder :
      passes_reached max_passes (token s) (self_unit s) = false ->
      holder (token s) <> name (self_unit s) ->
      body_view self_call peers delay max_passes s (Ok None, s, [])
  | view_no_peers :
      passes_reached max_passes (token s) (self_unit s) = false ->
      holder (token s) = name (self_unit s) ->
      peers = [] ->
      body_view self_call peers delay max_passes s
        (Raised ValueError, with_status (hop_status (token s)) s,
         [EvStatus (hop_status (token s))])
  | view_hand_off :
      passes_reached max_passes (token s) (self_unit s) = false ->
      holder (token s) = name (self_unit s) ->
      peers <> [] ->
      pick peers s <> name (self_unit s) ->
      body_view self_call peers delay max_passes s
        (Ok (Some (token (hop_state peers s))), hop_state peers s,
         hop_events delay (token s) (token (hop_state peers s)))
  | view_self_hop (r : Result (option Token)) (s2 : State) (t2 : list Event) :
      passes_reached max_passes (token s) (self_unit s) = false ->
      holder (token s) = name (self_unit s) ->
      peers <> [] ->
      pick peers s = name (self_unit s) ->
      self_call (hop_state peers s) = (r, s2, t2) ->
      body_view self_call peers delay max_passes s
        (r, s2,
         (hop_events delay (token s) (token (hop_state peers s)) ++ t2)%list).

(** *** The handlers that run the engine *)

(** Lines 139-160: [_on_players_relation_changed], for an event on
    [event_relation] about [event_unit].  What is left behind is the charm
    and the relation of the event. *)
Definition _on_players_relation_changed (json : Json) (depth : nat)
    (event_relation : Relation) (event_unit : string) (c : Charm)
    : Outcome (Charm * Relation) :=
  let bag := data event_relation event_unit in
  match dict_get bag "token" with
  | None => mkOutcome None (c, event_relation) [NoteInfo InfoNoToken]
  | Some text =>
      if String.eqb text "" then
        mkOutcome None (c, event_relation) [NoteInfo InfoNoToken]
      else
        match loads json text with
        | None => mkOutcome (Some JSONDecodeError) (c, event_relation) []
        | Some tok =>
            match players c with
            | [] => mkOutcome (Some (Builtin IndexError)) (c, event_relation) []
            | r :: _ =>
                let peers := peers_of c r in
                let delay := bucket_delay (stored c) in
                let max_passes := bucket_passes (stored c) in
                match forward depth peers delay max_passes (engine_state c tok) with
                | (Raised e, s', tr) =>
                    mkOutcome (Some (Builtin e)) (absorb c s', event_relation)
                              (map NoteEngine tr)
                | (Ok None, s', tr) =>
                    mkOutcome None (absorb c s', event_relation)
                              (map NoteEngine tr)
                | (Ok (Some tok'), s', tr) =>
                    mkOutcome None
                      (absorb c s',
                       write_token event_relation (name (this_unit c)) (dumps json tok'))
                      (map NoteEngine tr)
                end
            end
        end
  end.

(** Lines 170-179: the token is built, then forwarded. *)
Definition start_engine (depth : nat) (msg : string) (peers : list string)
    (delay : Q) (max_passes : option Z) : M (option Token) :=
  i <- randint 0 (Z.of_nat (length peers) - 1) ;;
  h <- list_getitem peers i ;;
  now <- time_time ;;
  put_token (mkToken msg h 0 0 now) ;;
  forward depth peers delay max_passes.

(** Lines 162-184: [_on_start_action], with [param_token] for
    [event.params["token"]]. *)
Definition _on_start_action (json : Json) (depth : nat) (param_token : string)
    (c : Charm)
    : Outcome Charm :=
  let delay := bucket_delay (stored c) in
  let max_passes := bucket_passes (stored c) in
  match players c with
  | [] => mkOutcome (Some (Builtin IndexError)) c [NoteInfo InfoConstructing]
  | r :: rest =>
      let peers := peers_of c r in
      match start_engine depth param_token peers delay max_passes
              (engine_state c no_token) with
      | (Raised e, s', tr) =>
          mkOutcome (Some (Builtin e)) (absorb c s')
                    (NoteInfo InfoConstructing :: map NoteEngine tr)
      | (Ok tmp_token, s', tr) =>
          let written :=
            match tmp_token with
            | Some t => t
            | None => token s'
            end in
          mkOutcome None
            (mkCharm (stored c) (self_unit s')
                     (write_token r (name (this_unit c)) (dumps json written) :: rest)
                     (rand_calls s') (time_calls s'))
            (NoteInfo InfoConstructing :: map NoteEngine tr)
      end
  end.

(** The state in which line 177 calls [forward]. *)
Definition start_state (msg : string) (peers : list string) (c : Charm) : State :=
  mkState (mkToken msg (pick peers (engine_state c no_token)) 0 0
                   (clk (time_used c)))
          (this_unit c) (S (rand_used c)) (S (time_used c)).

(** ** Properties *)

Lemma randint_index (peers : list string) (k : nat) :
  peers <> [] ->
  let n := Z.of_nat (length peers) in
  let i := 0 + Z.of_nat k mod (n - 1 - 0 + 1) in
  (n - 1 <? 0) = false /\ (i <? 0) = false /\ (n <=? i) = false /\
  Z.to_nat i = (k mod length peers)%nat.
Proof.
  intros Hne n i.
  assert (Hlen : (0 < length peers)%nat)
    by (destruct peers; [congruence | simpl; lia]).
  assert (Hi : i = Z.of_nat (k mod length peers)).
  { unfold i, n. rewrite Nat2Z.inj_mod, Z.add_0_l. f_equal. lia. }
  assert (Hlt : (k mod length peers < length peers)%nat)
    by (apply Nat.mod_upper_bound; lia).
  repeat split.
  - apply Z.ltb_ge. lia.
  - apply Z.ltb_ge. lia.
  - apply Z.leb_gt. lia.
  - rewrite Hi. apply Nat2Z.id.
Qed.

Lemma pick_nth_error (peers : list string) (s : State) :
  peers <> [] ->
  nth_error peers (rnd (rand_calls s) mod length peers)%nat = Some (pick peers s).
Proof.
  intros Hne. unfold pick. apply nth_error_nth'.
  apply Nat.mod_upper_bound. destruct peers; [congruence | simpl; lia].
Qed.

Lemma pick_In (peers : list string) (s : State) :
  peers <> [] -> In (pick peers s) peers.
Proof.
  intros Hne. eapply nth_error_In. apply pick_nth_error; assumption.
Qed.

(** [forward_body] case by case, in the order of the source. *)
Lemma forward_body_cases (self_call : M (option Token))
    (peers : list string) (delay : Q) (max_passes : option Z) (s : State) :
  forward_body self_call peers delay max_passes s =
  if passes_reached max_passes (token s) (self_unit s) then
    (Ok None, with_status (completion_status (token s)) s,
     [EvStatus (completion_status (token s))])
  else if negb (String.eqb (holder (token s)) (name (self_unit s))) then
    (Ok None, s, [])
  else
    match peers with
    | [] => (Raised ValueError, with_status (hop_status (token s)) s,
             [EvStatus (hop_status (token s))])
    | _ :: _ =>
        let s' := hop_state peers s in
        let tr := hop_events delay (token s) (token s') in
        if String.eqb (pick peers s) (name (self_unit s)) then
          match self_call s' with
          | (r, s2, t2) => (r, s2, (tr ++ t2)%list)
          end
        else (Ok (Some (token s')), s', tr)
    end.
Proof.
  destruct s as [tok [nm st] rc tc].
  unfold forward_body, with_status, hop_state, pick.
  cbv beta iota delta [bind get_token get_unit token self_unit name].
  destruct (passes_reached max_passes tok (mkUnit nm st)); [reflexivity |].
  destruct (negb (String.eqb (holder tok) nm)); [reflexivity |].
  destruct peers as [| p0 ps]; [reflexivity |].
  assert (Hne : p0 :: ps <> []) by discriminate.
  set (peers := p0 :: ps) in *.
  destruct (randint_index peers (rnd rc) Hne) as (H1 & H2 & H3 & H4).
  pose proof (pick_nth_error peers (mkState tok (mkUnit nm st) rc tc) Hne) as Hnth.
  unfold pick in Hnth.
  cbv beta iota delta [rand_calls] in Hnth.
  cbv beta iota zeta delta [set_status randint list_getitem bind ret raise
    rand_calls token self_unit time_calls name].
  rewrite H1. cbv beta iota. rewrite H2. cbv beta iota.
  rewrite H2, H3. cbv beta iota delta [orb].
  rewrite H4, Hnth.
  cbv beta iota delta [modify_token bind get_token put_token time_time
    time_sleep log_token emit ret set_status
    rand_calls token self_unit time_calls name
    set_holder set_times_passed set_time_elapsed set_timestamp
    message holder times_passed time_elapsed timestamp app].
  unfold hop_events, hop_token.
  cbv beta iota delta [message holder times_passed time_elapsed timestamp].
  destruct (Qlt_bool 0 delay);
    cbv beta iota delta [bind get_token put_token emit ret set_status
      rand_calls token self_unit time_calls name holder app];
    destruct (String.eqb _ nm);
    try reflexivity;
    destruct (self_call _) as [[r s2] t2]; reflexivity.
Qed.

Lemma forward_unfold (depth : nat) (peers : list string) (delay : Q)
    (max_passes : option Z) :
  forward depth peers delay max_passes =
  forward_body
    (match depth with
     | O => raise RecursionError
     | S d => forward d peers delay max_passes
     end)
    peers delay max_passes.
Proof. destruct depth; reflexivity. Qed.

Lemma passes_reached_spec (max_passes : option Z) (tok : Token) (u : Unit) :
  passes_reached max_passes tok u = true <->
  max_passes = Some (times_passed tok) /\ holder tok = name u.
Proof.
  unfold passes_reached. destruct max_passes as [n |].
  - rewrite andb_true_iff, Z.eqb_eq, String.eqb_eq.
    split; intros [H1 H2]; split; congruence.
  - split; [discriminate | intros [H _]; discriminate].
Qed.

Lemma passes_reached_not_holder (max_passes : option Z) (tok : Token) (u : Unit) :
  holder tok <> name u -> passes_reached max_passes tok u = false.
Proof.
  intros Hne. destruct (passes_reached max_passes tok u) eqn:E; [| reflexivity].
  apply passes_reached_spec in E. tauto.
Qed.

Lemma passes_reached_other_count (n : Z) (tok : Token) (u : Unit) :
  times_passed tok <> n -> passes_reached (Some n) tok u = false.
Proof.
  intros Hne. destruct (passes_reached (Some n) tok u) eqn:E; [| reflexivity].
  apply passes_reached_spec in E. destruct E as [E _]. congruence.
Qed.

Lemma forward_body_view (self_call : M (option Token))
    (peers : list string) (delay : Q) (max_passes : option Z) (s : State) :
  body_view self_call peers delay max_passes s
    (forward_body self_call peers delay max_passes s).
Proof.
  rewrite forward_body_cases.
  destruct (passes_reached max_passes (token s) (self_unit s)) eqn:Hp.
  { apply view_completed; assumption. }
  destruct (String.eqb_spec (holder (token s)) (name (self_unit s))) as [Hh | Hh];
    cbn [negb].
  2: { apply view_not_holder; assumption. }
  destruct peers as [| p0 ps].
  { apply view_no_peers; auto. }
  cbv zeta.
  destruct (String.eqb_spec (pick (p0 :: ps) s) (name (self_unit s))) as [Hs | Hs].
  - destruct (self_call (hop_state (p0 :: ps) s)) as [[r s2] t2] eqn:E.
    apply view_self_hop; auto; discriminate.
  - apply view_hand_off; auto; discriminate.
Qed.

Lemma forward_view (depth : nat) (peers : list string) (delay : Q)
    (max_passes : option Z) (s : State) :
  body_view
    (match depth with
     | O => raise RecursionError
     | S d => forward d peers delay max_passes
     end)
    peers delay max_passes s
    (forward depth peers delay max_passes s).
Proof. rewrite forward_unfold. apply forward_body_view. Qed.

Lemma logged_app (a b : list Event) : logged (a ++ b) = (logged a ++ logged b)%list.
Proof.
  induction a as [| e a IH]; [reflexivity |].
  destruct e; cbn [logged app]; rewrite IH; reflexivity.
Qed.

Lemma statuses_app (a b : list Event) :
  statuses (a ++ b) = (statuses a ++ statuses b)%list.
Proof.
  induction a as [| e a IH]; [reflexivity |].
  destruct e; cbn [statuses app]; rewrite IH; reflexivity.
Qed.

Lemma logged_hop_events (delay : Q) (t t' : Token) :
  logged (hop_events delay t t') = [t'].
Proof. unfold hop_events. destruct (Qlt_bool 0 delay); reflexivity. Qed.

Lemma statuses_hop_events (delay : Q) (t t' : Token) :
  statuses (hop_events delay t t') = [hop_status t; idle_status].
Proof. unfold hop_events. destruct (Qlt_bool 0 delay); reflexivity. Qed.

Lemma pass_step_hop (peers : list string) (s : State) :
  pass_step (token s) (token (hop_state peers s)).
Proof.
  unfold pass_step, hop_state, hop_token.
  cbn [token times_passed time_elapsed timestamp].
  repeat split. intros H. lra.
Qed.

(** The call of line 63: one more frame for one more self-hop. *)
Lemma forward_self_hop (depth : nat) (peers : list string) (delay : Q)
    (max_passes : option Z) (s : State) :
  passes_reached max_passes (token s) (self_unit s) = false ->
  holder (token s) = name (self_unit s) ->
  peers <> [] ->
  pick peers s = name (self_unit s) ->
  forward depth peers delay max_passes s =
  match
    match depth with
    | O => raise RecursionError
    | S d => forward d peers delay max_passes
    end (hop_state peers s)
  with
  | (r, s2, t2) =>
      (r, s2, (hop_events delay (token s) (token (hop_state peers s)) ++ t2)%list)
  end.
Proof.
  intros Hp Hh Hne Hs.
  rewrite (forward_unfold depth), forward_body_cases.
  rewrite Hp. apply String.eqb_eq in Hh. rewrite Hh. cbn [negb].
  destruct peers as [| p0 ps]; [congruence |].
  cbv zeta. apply String.eqb_eq in Hs. rewrite Hs. reflexivity.
Qed.

Lemma pick_single (me : string) (s : State) : pick [me] s = me.
Proof. unfold pick. cbn [length]. rewrite Nat.mod_1_r. reflexivity. Qed.

Lemma last_cons (A : Type) (x d : A) (l : list A) : last (x :: l) d = last l x.
Proof.
  revert x d. induction l as [| y l IH]; intros x d; [reflexivity |].
  change (last (x :: y :: l) d) with (last (y :: l) d).
  rewrite (IH y d), (IH y x). reflexivity.
Qed.

Lemma last_map (A B : Type) (f : A -> B) (l : list A) (d : A) :
  f (last l d) = last (map f l) (f d).
Proof.
  induction l as [| x l IH]; [reflexivity |].
  destruct l as [| y l]; [reflexivity |].
  change (f (last (y :: l) d) = last (map f (y :: l)) (f d)). exact IH.
Qed.

Lemma hop_status_not_completion (t t' : Token) :
  hop_status t <> completion_status t'.
Proof.
  unfold hop_status, completion_status.
  cbn [render render_piece append]. intros H. discriminate H.
Qed.

Lemma idle_status_not_completion (t' : Token) :
  idle_status <> completion_status t'.
Proof.
  unfold idle_status, completion_status.
  cbn [render render_piece append]. intros H. discriminate H.
Qed.

(** *** Formatting *)

Lemma round_half_even_near (q : Q) :
  (Qabs (inject_Z (round_half_even q) - q) <= 1 # 2)%Q.
Proof.
  destruct q as [n d]. unfold round_half_even. cbn [Qnum Qden].
  pose proof (Z.div_mod n (Z.pos d) ltac:(lia)) as Hdm.
  pose proof (Z.mod_pos_bound n (Z.pos d) ltac:(lia)) as Hb.
  set (fl := n / Z.pos d) in *. set (r := n mod Z.pos d) in *.
  assert (Hcase : forall c : Z,
             2 * Z.abs (c * Z.pos d - n) <= Z.pos d ->
             (Qabs (inject_Z c - (n # d)) <= 1 # 2)%Q).
  { intros c Hc. unfold Qle, Qabs, Qminus, Qplus, Qopp, inject_Z.
    cbn [Qnum Qden]. rewrite Pos.mul_1_l.
    replace (c * Z.pos d + - n * 1) with (c * Z.pos d - n) by lia. lia. }
  apply Hcase.
  destruct (Z.ltb_spec (2 * r) (Z.pos d)); [nia |].
  destruct (Z.ltb_spec (Z.pos d) (2 * r)); [nia |].
  destruct (Z.even fl); nia.
Qed.

Lemma round_half_even_nonneg (q : Q) :
  (0 <= q)%Q -> 0 <= round_half_even q.
Proof.
  destruct q as [n d]. unfold Qle, round_half_even. cbn [Qnum Qden].
  intros Hn.
  assert (0 <= n / Z.pos d) by (apply Z.div_pos; lia).
  destruct (_ <? _); [lia |].
  destruct (_ <? _); [lia |].
  destruct (Z.even _); lia.
Qed.

Lemma str_int_digit (z : Z) :
  0 <= z < 10 ->
  exists c, str_int z = String c "" /\ is_digit c = true /\
            Z.of_nat (nat_of_ascii c) - 48 = z.
Proof.
  intros Hz.
  assert (E : z = 0 \/ z = 1 \/ z = 2 \/ z = 3 \/ z = 4 \/
              z = 5 \/ z = 6 \/ z = 7 \/ z = 8 \/ z = 9) by lia.
  repeat (destruct E as [E | E]); subst z;
    eexists; (split; [reflexivity | split; reflexivity]).
Qed.

(** [format_2f]: an optional minus sign, then the absolute value rounded
    to the nearest hundredth and written with two decimals. *)
Lemma format_2f_two_decimals (q : Q) :
  exists (body : string) (h : Z),
    format_2f q = (if Qlt_bool q 0 then "-" else "") ++ body /\
    two_decimals body h /\
    (Qabs (inject_Z h - Qabs q * 100) <= 1 # 2)%Q.
Proof.
  unfold format_2f.
  set (c := round_half_even (Qabs q * 100)).
  assert (Hc : 0 <= c).
  { apply round_half_even_nonneg.
    apply Qmult_le_0_compat; [apply Qabs_nonneg | discriminate]. }
  pose proof (Z.div_mod c 100 ltac:(lia)) as D1.
  pose proof (Z.mod_pos_bound c 100 ltac:(lia)) as B1.
  pose proof (Z.div_mod (c mod 100) 10 ltac:(lia)) as D2.
  pose proof (Z.mod_pos_bound (c mod 100) 10 ltac:(lia)) as B2.
  assert (M : (c mod 100) mod 10 = c mod 10).
  { apply Z.mod_mod_divide. exists 10. reflexivity. }
  assert (P0 : 0 <= c / 100) by (apply Z.div_pos; lia).
  assert (P1 : 0 <= c mod 100 / 10 < 10).
  { split; [apply Z.div_pos; lia |].
    apply Z.div_lt_upper_bound; lia. }
  destruct (str_int_digit (c mod 100 / 10) P1) as (c1 & E1 & G1 & V1).
  destruct (str_int_digit (c mod 10) ltac:(lia)) as (c2 & E2 & G2 & V2).
  exists (str_int (c / 100) ++ "." ++ String c1 (String c2 "")), c.
  split; [| split].
  - rewrite E1, E2. reflexivity.
  - exists (c / 100), c1, c2. repeat split; try assumption. lia.
  - apply round_half_even_near.
Qed.

Lemma append_empty_r (x : string) : x ++ "" = x.
Proof. induction x as [| c x IH]; cbn [append]; [| rewrite IH]; reflexivity. Qed.

Lemma completion_status_spec (t : Token) :
  completion_status t = ActiveStatus (spec_terminated_format t).
Proof. reflexivity. Qed.

Lemma hop_status_spec (t : Token) :
  hop_status t = ActiveStatus (spec_active_format t).
Proof.
  unfold hop_status, spec_active_format.
  cbn [render render_piece append]. rewrite append_empty_r. reflexivity.
Qed.

Lemma status_format_hop (t : Token) : status_format (hop_status t).
Proof. left. exists t. apply hop_status_spec. Qed.

Lemma status_format_completion (t : Token) : status_format (completion_status t).
Proof. right. left. exists t. apply completion_status_spec. Qed.

Lemma status_format_idle : status_format idle_status.
Proof. right. right. reflexivity. Qed.

Ltac all_formats :=
  repeat (apply Forall_cons;
          [ first [ apply status_format_completion
                  | apply status_format_hop
                  | apply status_format_idle ] | ]);
  apply Forall_nil.

(** C9: every status that [forward] publishes has one of the three
    formats, the number in it being written with two decimals.  On the
    termination branch the only status is the completion message; on the
    hand-off branch the hop status comes first and, once a peer has been
    selected and the hop committed, the empty status follows; otherwise
    nothing is published.  The status the unit is left with is the last
    one published. *)
Theorem forward_status_formats (depth : nat) (peers : list string)
    (delay : Q) (max_passes : option Z) (s : State) :
  let out := forward depth peers delay max_passes s in
  let published := statuses (events_of out) in
  Forall status_format published /\
  (if passes_reached max_passes (token s) (self_unit s) then
     published = [ActiveStatus (spec_terminated_format (token s))]
   else if String.eqb (holder (token s)) (name (self_unit s)) then
     match peers with
     | [] => published = [ActiveStatus (spec_active_format (token s))]
     | _ :: _ =>
         exists rest,
           published = ActiveStatus (spec_active_format (token s))
                         :: ActiveStatus "" :: rest
     end
   else published = []) /\
  status (self_unit (state_of out)) = last published (status (self_unit s)) /\
  (forall q : Q, exists (body : string) (h : Z),
      format_2f q = (if Qlt_bool q 0 then "-" else "") ++ body /\
      two_decimals body h /\
      (Qabs (inject_Z h - Qabs q * 100) <= 1 # 2)%Q).
Proof.
  cbv zeta.
  assert (G : Forall status_format
                (statuses (events_of (forward depth peers delay max_passes s))) /\
              status (self_unit (state_of (forward depth peers delay max_passes s)))
              = last (statuses (events_of (forward depth peers delay max_passes s)))
                     (status (self_unit s))).
  { revert s.
    induction depth as [| d IH]; intros s;
      match goal with |- context [forward ?k _ _ _ _] =>
        destruct (forward_view k peers delay max_passes s)
          as [Hp | Hp Hh | Hp Hh Hne | Hp Hh Hne Hs | r s2 t2 Hp Hh Hne Hs E] end;
      unfold events_of, state_of; cbn [fst snd];
      try (cbn [statuses last with_status self_unit status]; split;
           [ all_formats | reflexivity ]);
      try (rewrite statuses_hop_events; split;
           [ all_formats | reflexivity ]).
    - injection E as <- <- <-. rewrite app_nil_r, statuses_hop_events. split.
      + all_formats.
      + reflexivity.
    - specialize (IH (hop_state peers s)). rewrite E in IH.
      unfold events_of, state_of in IH; cbn [fst snd] in IH.
      destruct IH as [F L].
      rewrite statuses_app, statuses_hop_events. cbn [app]. split.
      + constructor; [apply status_format_hop |].
        constructor; [apply status_format_idle | exact F].
      + rewrite !last_cons. exact L. }
  destruct G as [G1 G2].
  split; [exact G1 |]. split; [| split; [exact G2 | apply format_2f_two_decimals]].
  rewrite (forward_unfold depth), forward_body_cases.
  destruct (passes_reached max_passes (token s) (self_unit s)).
  { unfold events_of; cbn [snd statuses].
    rewrite completion_status_spec. reflexivity. }
  destruct (String.eqb (holder (token s)) (name (self_unit s))); cbn [negb].
  2: reflexivity.
  destruct peers as [| p0 ps].
  { unfold events_of; cbn [snd statuses]. rewrite hop_status_spec. reflexivity. }
  cbv zeta.
  destruct (String.eqb (pick (p0 :: ps) s) (name (self_unit s))).
  - destruct (match depth with
              | O => raise RecursionError
              | S d => forward d (p0 :: ps) delay max_passes
              end (hop_state (p0 :: ps) s)) as [[r s2] t2].
    unfold events_of; cbn [snd].
    rewrite statuses_app, statuses_hop_events, hop_status_spec.
    eexists. reflexivity.
  - unfold events_of; cbn [snd].
    rewrite statuses_hop_events, hop_status_spec.
    eexists. reflexivity.
Qed.

(** *** Termination check *)

(** C1: when [max_passes] is set, [token.times_passed] equals it and
    [token.holder] is this unit, [forward] returns [None] whatever the
    message, the elapsed time, the delay and the peers are; the completion
    status carries the token's [time_elapsed] as received; and the check
    runs before any mutation: the token in the store is the token
    received, and no random draw and no clock reading has been taken. *)
Theorem forward_max_passes_reached (depth : nat) (peers : list string)
    (delay : Q) (n : Z) (s : State) :
  times_passed (token s) = n ->
  holder (token s) = name (self_unit s) ->
  let report :=
    ActiveStatus ("Maximum passes reached. Time to completion is "
                  ++ format_2f (time_elapsed (token s)) ++ " seconds.") in
  forward depth peers delay (Some n) s =
  (Ok None,
   mkState (token s) (mkUnit (name (self_unit s)) report)
           (rand_calls s) (time_calls s),
   [EvStatus report]).
Proof.
  intros Hn Hh report.
  rewrite forward_unfold, forward_body_cases.
  assert (E : passes_reached (Some n) (token s) (self_unit s) = true)
    by (apply passes_reached_spec; split; congruence).
  rewrite E. reflexivity.
Qed.

(** *** Ownership check *)

(** C2: a token held by another unit makes [forward] return [None]
    normally, with the store (hence every field of the token) unchanged
    and nothing published. *)
Theorem forward_not_holder (depth : nat) (peers : list string)
    (delay : Q) (max_passes : option Z) (s : State) :
  holder (token s) <> name (self_unit s) ->
  forward depth peers delay max_passes s = (Ok None, s, []).
Proof.
  intros Hne.
  rewrite forward_unfold, forward_body_cases.
  rewrite passes_reached_not_holder by assumption.
  apply String.eqb_neq in Hne. rewrite Hne. reflexivity.
Qed.

(** *** Selection over the peers *)

(** C5 (as the code has it): with an empty peer list, [forward] raises
    exactly when this unit holds the token and the pass limit is not
    reached; the exception is the [ValueError] of [random.randint] over an
    empty range, it reaches the caller, and the token is untouched.  In
    the two other cases the termination and ownership checks answer
    first and [forward] returns [None]. *)
Theorem forward_empty_peers (depth : nat) (delay : Q)
    (max_passes : option Z) (s : State) :
  forward depth [] delay max_passes s =
  if passes_reached max_passes (token s) (self_unit s) then
    (Ok None, with_status (completion_status (token s)) s,
     [EvStatus (completion_status (token s))])
  else if String.eqb (holder (token s)) (name (self_unit s)) then
    (Raised ValueError, with_status (hop_status (token s)) s,
     [EvStatus (hop_status (token s))])
  else (Ok None, s, []).
Proof.
  rewrite forward_unfold, forward_body_cases.
  destruct (passes_reached max_passes (token s) (self_unit s)); [reflexivity |].
  destruct (String.eqb (holder (token s)) (name (self_unit s))); reflexivity.
Qed.

Lemma hop_state_name (peers : list string) (s : State) :
  name (self_unit (hop_state peers s)) = name (self_unit s).
Proof. reflexivity. Qed.

Lemma hop_state_holder (peers : list string) (s : State) :
  holder (token (hop_state peers s)) = pick peers s.
Proof. reflexivity. Qed.

(** C8: a token that [forward] returns is addressed to a member of the
    peer list and not to this unit; it is the token object of the store. *)
Theorem forward_returned_holder (depth : nat) (peers : list string)
    (delay : Q) (max_passes : option Z) (s s' : State) (t : Token)
    (tr : list Event) :
  forward depth peers delay max_passes s = (Ok (Some t), s', tr) ->
  In (holder t) peers /\ holder t <> name (self_unit s) /\ t = token s'.
Proof.
  revert s s' t tr.
  induction depth as [| d IH]; intros s s' t tr;
    rewrite forward_unfold, forward_body_cases;
    destruct (passes_reached max_passes (token s) (self_unit s));
    try discriminate;
    destruct (negb (String.eqb (holder (token s)) (name (self_unit s))));
    try discriminate;
    destruct peers as [| p0 ps]; try discriminate;
    assert (Hne : p0 :: ps <> []) by discriminate;
    cbv zeta;
    destruct (String.eqb (pick (p0 :: ps) s) (name (self_unit s))) eqn:Hself;
    try discriminate;
    try (intros H; injection H as Ht Hs Htr; subst t s' tr;
         cbn [holder hop_token]; apply String.eqb_neq in Hself;
         split; [apply pick_In; assumption | split; [assumption | reflexivity]]).
  destruct (forward d (p0 :: ps) delay max_passes
              (hop_state (p0 :: ps) s)) as [[r s2] t2] eqn:E.
  intros H. injection H as Hr Hs Htr. subst r s2.
  apply IH in E. rewrite hop_state_name in E. exact E.
Qed.

(** *** Counters *)

Ltac no_completion :=
  let t := fresh "t" in
  let Hc := fresh "Hc" in
  intros t Hc; cbn [In app] in Hc;
  repeat match type of Hc with
         | _ \/ _ => destruct Hc as [Hc | Hc]
         end;
  try contradiction;
  try exact (hop_status_not_completion _ _ Hc);
  try exact (idle_status_not_completion _ Hc).

(** *** The self-loop *)

(** A unit alone in the game, [k] passes short of the limit, with at
    least [k] nested calls allowed. *)
Lemma forward_alone (k : nat) :
  forall (depth : nat) (delay : Q) (n : Z) (s : State),
    holder (token s) = name (self_unit s) ->
    n = times_passed (token s) + Z.of_nat k ->
    (k <= depth)%nat ->
    let out := forward depth [name (self_unit s)] delay (Some n) s in
    result_of out = Ok None /\
    map times_passed (logged (events_of out))
      = map (fun i => times_passed (token s) + Z.of_nat i) (seq 1 k) /\
    Forall (fun t => holder t = name (self_unit s)) (logged (events_of out)) /\
    token (state_of out) = last (logged (events_of out)) (token s) /\
    status (self_unit (state_of out)) = completion_status (token (state_of out)).
Proof.
  induction k as [| k IH]; intros depth delay n s Hh Hn Hd; cbv zeta.
  - rewrite (forward_unfold depth), forward_body_cases.
    assert (E : passes_reached (Some n) (token s) (self_unit s) = true)
      by (apply passes_reached_spec; split; [f_equal; lia | assumption]).
    rewrite E. unfold result_of, events_of, state_of. cbn.
    repeat split. constructor.
  - destruct depth as [| d]; [lia |].
    rewrite forward_self_hop;
      [ | apply passes_reached_other_count; lia | assumption
        | discriminate | apply pick_single ].
    set (me := name (self_unit s)) in *.
    set (s1 := hop_state [me] s).
    assert (Hme : name (self_unit s1) = me) by reflexivity.
    assert (Hh1 : holder (token s1) = name (self_unit s1))
      by (unfold s1; rewrite hop_state_holder, pick_single; reflexivity).
    assert (Htp : times_passed (token s1) = times_passed (token s) + 1)
      by reflexivity.
    specialize (IH d delay n s1 Hh1).
    rewrite Hme in IH.
    destruct (forward d [me] delay (Some n) s1) as [[r s2] t2].
    unfold result_of, events_of, state_of in *; cbn [fst snd] in *.
    destruct IH as (R1 & R2 & R3 & R4 & R5); [lia | lia |].
    rewrite logged_app, logged_hop_events. cbn [app map].
    rewrite last_cons. repeat split; try assumption.
    + rewrite R2, Htp. cbn [seq map]. f_equal.
      rewrite <- (seq_shift k 1), map_map. apply map_ext. intros i. lia.
    + constructor; [exact Hh1 | exact R3].
Qed.

(** C3: a unit that is the only peer and holds a token with fewer than
    [n] passes runs the whole game by itself.  Given room for the nested
    calls, [forward] returns [None]; it logs one token per self-hop, all
    held by this unit, whose counts are [times_passed + 1, ..., n] in
    this order; and it ends on the termination branch with the count at
    [n]. *)
Theorem forward_self_loop_converges (depth : nat) (delay : Q) (n : Z)
    (s : State) :
  holder (token s) = name (self_unit s) ->
  times_passed (token s) < n ->
  (Z.to_nat (n - times_passed (token s)) <= depth)%nat ->
  let out := forward depth [name (self_unit s)] delay (Some n) s in
  result_of out = Ok None /\
  map times_passed (logged (events_of out))
    = map (fun i => times_passed (token s) + Z.of_nat i)
          (seq 1 (Z.to_nat (n - times_passed (token s)))) /\
  Forall (fun t => holder t = name (self_unit s)) (logged (events_of out)) /\
  times_passed (token (state_of out)) = n /\
  status (self_unit (state_of out)) = completion_status (token (state_of out)).
Proof.
  intros Hh Hlt Hd.
  pose proof (forward_alone (Z.to_nat (n - times_passed (token s)))
                depth delay n s Hh) as P.
  cbv zeta in *.
  destruct P as (R1 & R2 & R3 & R4 & R5); [lia | assumption |].
  repeat split; try assumption.
  rewrite R4, (last_map _ _ times_passed), R2.
  remember (Z.to_nat (n - times_passed (token s))) as k eqn:Hk.
  destruct k as [| k']; [lia |].
  rewrite seq_S, map_app. cbn [map]. rewrite last_last. lia.
Qed.

(** *** Runs of [forward], by induction on the nested calls *)

(** Induction over a run: the four ways a call ends by itself, the
    call that finds no room for the next one, and the call that nests. *)
Lemma forward_run_ind (peers : list string) (delay : Q) (max_passes : option Z)
    (P : nat -> State -> Result (option Token) * State * list Event -> Prop) :
  (forall d s,
      passes_reached max_passes (token s) (self_unit s) = true ->
      P d s (Ok None, with_status (completion_status (token s)) s,
             [EvStatus (completion_status (token s))])) ->
  (forall d s,
      passes_reached max_passes (token s) (self_unit s) = false ->
      holder (token s) <> name (self_unit s) ->
      P d s (Ok None, s, [])) ->
  (forall d s,
      passes_reached max_passes (token s) (self_unit s) = false ->
      holder (token s) = name (self_unit s) ->
      peers = [] ->
      P d s (Raised ValueError, with_status (hop_status (token s)) s,
             [EvStatus (hop_status (token s))])) ->
  (forall d s,
      passes_reached max_passes (token s) (self_unit s) = false ->
      holder (token s) = name (self_unit s) ->
      peers <> [] ->
      pick peers s <> name (self_unit s) ->
      P d s (Ok (Some (token (hop_state peers s))), hop_state peers s,
             hop_events delay (token s) (token (hop_state peers s)))) ->
  (forall s,
      passes_reached max_passes (token s) (self_unit s) = false ->
      holder (token s) = name (self_unit s) ->
      peers <> [] ->
      pick peers s = name (self_unit s) ->
      P O s (Raised RecursionError, hop_state peers s,
             hop_events delay (token s) (token (hop_state peers s)))) ->
  (forall d s r s2 t2,
      passes_reached max_passes (token s) (self_unit s) = false ->
      holder (token s) = name (self_unit s) ->
      peers <> [] ->
      pick peers s = name (self_unit s) ->
      forward d peers delay max_passes (hop_state peers s) = (r, s2, t2) ->
      P d (hop_state peers s) (r, s2, t2) ->
      P (S d) s
        (r, s2,
         (hop_events delay (token s) (token (hop_state peers s)) ++ t2)%list)) ->
  forall d s, P d s (forward d peers delay max_passes s).
Proof.
  intros H1 H2 H3 H4 H5 H6 d.
  induction d as [| d IH]; intros s;
    match goal with |- context [forward ?k _ _ _ _] =>
      destruct (forward_view k peers delay max_passes s)
        as [Hp | Hp Hh | Hp Hh Hne | Hp Hh Hne Hs | r s2 t2 Hp Hh Hne Hs E] end;
    auto.
  - injection E as <- <- <-. rewrite app_nil_r. auto.
  - apply H6; auto. rewrite <- E. apply IH.
Qed.

Lemma sleeps_app (a b : list Event) : sleeps (a ++ b) = (sleeps a ++ sleeps b)%list.
Proof.
  induction a as [| e a IH]; [reflexivity |].
  destruct e; cbn [sleeps app]; rewrite IH; reflexivity.
Qed.

Lemma sleeps_hop_events (delay : Q) (t t' : Token) :
  sleeps (hop_events delay t t') = if Qlt_bool 0 delay then [delay] else [].
Proof. unfold hop_events. destruct (Qlt_bool 0 delay); reflexivity. Qed.

Lemma passes_not_reached_count (n : Z) (tok : Token) (u : Unit) :
  passes_reached (Some n) tok u = false ->
  holder tok = name u ->
  times_passed tok <> n.
Proof.
  intros Hp Hh Hn.
  assert (E : passes_reached (Some n) tok u = true)
    by (apply passes_reached_spec; split; [f_equal; symmetry |]; assumption).
  congruence.
Qed.

Lemma forward_completed_eq (depth : nat) (peers : list string) (delay : Q)
    (max_passes : option Z) (s : State) :
  passes_reached max_passes (token s) (self_unit s) = true ->
  forward depth peers delay max_passes s =
  (Ok None, with_status (completion_status (token s)) s,
   [EvStatus (completion_status (token s))]).
Proof.
  intros Hp. rewrite (forward_unfold depth), forward_body_cases, Hp. reflexivity.
Qed.

Lemma forward_ignored_eq (depth : nat) (peers : list string) (delay : Q)
    (max_passes : option Z) (s : State) :
  holder (token s) <> name (self_unit s) ->
  forward depth peers delay max_passes s = (Ok None, s, []).
Proof.
  intros Hh. rewrite (forward_unfold depth), forward_body_cases.
  rewrite passes_reached_not_holder by assumption.
  apply String.eqb_neq in Hh. rewrite Hh. reflexivity.
Qed.

Lemma forward_no_peers_eq (depth : nat) (delay : Q)
    (max_passes : option Z) (s : State) :
  passes_reached max_passes (token s) (self_unit s) = false ->
  holder (token s) = name (self_unit s) ->
  forward depth [] delay max_passes s =
  (Raised ValueError, with_status (hop_status (token s)) s,
   [EvStatus (hop_status (token s))]).
Proof.
  intros Hp Hh. rewrite (forward_unfold depth), forward_body_cases, Hp.
  apply String.eqb_eq in Hh. rewrite Hh. reflexivity.
Qed.

Lemma forward_hand_off_eq (depth : nat) (peers : list string) (delay : Q)
    (max_passes : option Z) (s : State) :
  passes_reached max_passes (token s) (self_unit s) = false ->
  holder (token s) = name (self_unit s) ->
  peers <> [] ->
  pick peers s <> name (self_unit s) ->
  forward depth peers delay max_passes s =
  (Ok (Some (token (hop_state peers s))), hop_state peers s,
   hop_events delay (token s) (token (hop_state peers s))).
Proof.
  intros Hp Hh Hne Hs. rewrite (forward_unfold depth), forward_body_cases, Hp.
  apply String.eqb_eq in Hh. rewrite Hh. cbn [negb].
  destruct peers as [| p0 ps]; [congruence |].
  cbv zeta. apply String.eqb_neq in Hs. rewrite Hs. reflexivity.
Qed.

(** What a returned token tells about the state it is returned in. *)
Lemma forward_some_inv (depth : nat) (peers : list string) (delay : Q)
    (max_passes : option Z) (s : State) :
  forall t,
    result_of (forward depth peers delay max_passes s) = Ok (Some t) ->
    t = token (state_of (forward depth peers delay max_passes s)) /\
    In (holder t) peers /\
    holder t <> name (self_unit s) /\
    name (self_unit (state_of (forward depth peers delay max_passes s)))
    = name (self_unit s).
Proof.
  revert depth s.
  apply (forward_run_ind peers delay max_passes
           (fun _ s o => forall t, result_of o = Ok (Some t) ->
              t = token (state_of o) /\ In (holder t) peers /\
              holder t <> name (self_unit s) /\
              name (self_unit (state_of o)) = name (self_unit s)));
    unfold result_of, state_of; cbn [fst snd];
    try (intros; discriminate).
  - intros _ s Hp Hh Hne Hs t E. injection E as <-.
    cbn [hop_state token hop_token holder self_unit name].
    split; [reflexivity | split; [apply pick_In; assumption |]].
    split; [assumption | reflexivity].
  - intros d s r s2 t2 Hp Hh Hne Hs E IH t Hr.
    destruct (IH t Hr) as (I1 & I2 & I3 & I4).
    rewrite hop_state_name in I3, I4. auto.
Qed.

(** *** What a run keeps *)

(** X1: no run touches the message of the token or the name of the unit:
    the token left in the store, every token logged and the token
    returned, if any, carry the message received. *)
Theorem forward_keeps_message (depth : nat) (peers : list string) (delay : Q)
    (max_passes : option Z) (s : State) :
  let out := forward depth peers delay max_passes s in
  message (token (state_of out)) = message (token s) /\
  name (self_unit (state_of out)) = name (self_unit s) /\
  Forall (fun t => message t = message (token s)) (logged (events_of out)) /\
  (forall t, result_of out = Ok (Some t) -> message t = message (token s)).
Proof.
  cbv zeta. revert depth s.
  apply (forward_run_ind peers delay max_passes
           (fun _ s o =>
              message (token (state_of o)) = message (token s) /\
              name (self_unit (state_of o)) = name (self_unit s) /\
              Forall (fun t => message t = message (token s)) (logged (events_of o)) /\
              (forall t, result_of o = Ok (Some t) -> message t = message (token s))));
    unfold result_of, state_of, events_of; cbn [fst snd];
    try (intros; rewrite ?logged_hop_events; cbn [logged];
         repeat split;
         try (repeat constructor; reflexivity);
         intros; try discriminate;
         match goal with E : Ok _ = Ok _ |- _ => injection E as <- end;
         reflexivity).
  intros d s r s2 t2 Hp Hh Hne Hs E (I1 & I2 & I3 & I4).
  rewrite logged_app, logged_hop_events. cbn [app].
  repeat split; try assumption.
  constructor; [reflexivity | exact I3].
Qed.

(** X2: a count at or below the limit stays at or below it.  Whatever
    the peers and the draws, the token left in the store and every token
    logged have [times_passed <= max_passes]. *)
Theorem forward_stays_within_limit (depth : nat) (peers : list string)
    (delay : Q) (n : Z) (s : State) :
  times_passed (token s) <= n ->
  let out := forward depth peers delay (Some n) s in
  times_passed (token (state_of out)) <= n /\
  Forall (fun t => times_passed t <= n) (logged (events_of out)).
Proof.
  intros H. cbv zeta. revert depth s H.
  apply (forward_run_ind peers delay (Some n)
           (fun _ s o =>
              times_passed (token s) <= n ->
              times_passed (token (state_of o)) <= n /\
              Forall (fun t => times_passed t <= n) (logged (events_of o))));
    unfold state_of, events_of; cbn [fst snd].
  - intros _ s _ H. split; [exact H | constructor].
  - intros _ s _ _ H. split; [exact H | constructor].
  - intros _ s _ _ _ H. split; [exact H | constructor].
  - intros _ s Hp Hh _ _ H.
    pose proof (passes_not_reached_count n _ _ Hp Hh) as Hn.
    rewrite logged_hop_events.
    assert (T : times_passed (token (hop_state peers s)) <= n)
      by (cbn [hop_state token hop_token times_passed]; lia).
    split; [exact T | repeat constructor; exact T].
  - intros s Hp Hh _ _ H.
    pose proof (passes_not_reached_count n _ _ Hp Hh) as Hn.
    rewrite logged_hop_events.
    assert (T : times_passed (token (hop_state peers s)) <= n)
      by (cbn [hop_state token hop_token times_passed]; lia).
    split; [exact T | repeat constructor; exact T].
  - intros d s r s2 t2 Hp Hh _ _ _ IH H.
    pose proof (passes_not_reached_count n _ _ Hp Hh) as Hn.
    assert (T : times_passed (token (hop_state peers s)) <= n)
      by (cbn [hop_state token hop_token times_passed]; lia).
    destruct (IH T) as [I1 I2].
    rewrite logged_app, logged_hop_events. cbn [app].
    split; [exact I1 | constructor; assumption].
Qed.

(** *** How a run can end *)

(** X4: [ValueError] and [IndexError] in [forward].  [ValueError] needs
    an empty peer list and a token held by this unit, and leaves the token
    as received; [IndexError] never happens, the index drawn being within
    the list. *)
Theorem forward_raises_only (depth : nat) (peers : list string) (delay : Q)
    (max_passes : option Z) (s : State) :
  let out := forward depth peers delay max_passes s in
  match result_of out with
  | Raised ValueError =>
      peers = [] /\ token (state_of out) = token s /\
      holder (token s) = name (self_unit s)
  | Raised IndexError => False
  | _ => True
  end.
Proof.
  cbv zeta. revert depth s.
  apply (forward_run_ind peers delay max_passes
           (fun _ s o =>
              match result_of o with
              | Raised ValueError =>
                  peers = [] /\ token (state_of o) = token s /\
                  holder (token s) = name (self_unit s)
              | Raised IndexError => False
              | _ => True
              end));
    unfold result_of, state_of; cbn [fst snd]; auto.
  intros d s r s2 t2 Hp Hh Hne Hs E IH.
  destruct r as [v | [ | | ]]; auto.
  destruct IH as [I1 _]. congruence.
Qed.

(** X5: room to spare changes nothing.  A run that does not end in
    [RecursionError] ends in the same way, in the same state and with the
    same events, whenever more nested calls are allowed. *)
Theorem forward_depth_monotone (depth depth' : nat) (peers : list string)
    (delay : Q) (max_passes : option Z) (s : State) :
  result_of (forward depth peers delay max_passes s) <> Raised RecursionError ->
  (depth <= depth')%nat ->
  forward depth' peers delay max_passes s = forward depth peers delay max_passes s.
Proof.
  intros H Hle. revert depth s H depth' Hle.
  apply (forward_run_ind peers delay max_passes
           (fun d s o =>
              result_of o <> Raised RecursionError ->
              forall d', (d <= d')%nat ->
                         forward d' peers delay max_passes s = o));
    unfold result_of; cbn [fst].
  - intros _ s Hp _ d' _. apply forward_completed_eq; assumption.
  - intros _ s _ Hh _ d' _. apply forward_ignored_eq; assumption.
  - intros _ s Hp Hh -> _ d' _. apply forward_no_peers_eq; assumption.
  - intros _ s Hp Hh Hne Hs _ d' _. apply forward_hand_off_eq; assumption.
  - intros s _ _ _ _ H. congruence.
  - intros d s r s2 t2 Hp Hh Hne Hs E IH H d' Hle.
    destruct d' as [| d'']; [lia |].
    rewrite forward_self_hop by assumption.
    rewrite (IH H d'') by lia. reflexivity.
Qed.

(** X6: a token handed off is not this unit's any more.  In the state in
    which [forward] returned a token, any further call, whatever its
    peers, delay and limit, returns [None] and changes nothing. *)
Theorem forward_handed_off_then_ignored (depth depth' : nat)
    (peers peers' : list string) (delay delay' : Q)
    (max_passes max_passes' : option Z) (s : State) (t : Token) :
  result_of (forward depth peers delay max_passes s) = Ok (Some t) ->
  let s' := state_of (forward depth peers delay max_passes s) in
  forward depth' peers' delay' max_passes' s' = (Ok None, s', []).
Proof.
  intros H. cbv zeta.
  destruct (forward_some_inv depth peers delay max_passes s t H)
    as (I1 & _ & I3 & I4).
  apply forward_ignored_eq. rewrite <- I1, I4. exact I3.
Qed.

(** X7: what [None] means.  Either the token was held by another unit and
    nothing at all happened, or the run ended on the termination branch:
    the token in the store is held by this unit, its count is the limit,
    and the unit shows the completion status of that token. *)
Theorem forward_none_means (depth : nat) (peers : list string) (delay : Q)
    (max_passes : option Z) (s : State) :
  let out := forward depth peers delay max_passes s in
  result_of out = Ok None ->
  (holder (token s) <> name (self_unit s) /\ out = (Ok None, s, [])) \/
  (max_passes = Some (times_passed (token (state_of out))) /\
   holder (token (state_of out)) = name (self_unit s) /\
   status (self_unit (state_of out)) = completion_status (token (state_of out))).
Proof.
  cbv zeta. revert depth s.
  apply (forward_run_ind peers delay max_passes
           (fun _ s o =>
              result_of o = Ok None ->
              (holder (token s) <> name (self_unit s) /\ o = (Ok None, s, [])) \/
              (max_passes = Some (times_passed (token (state_of o))) /\
               holder (token (state_of o)) = name (self_unit s) /\
               status (self_unit (state_of o))
               = completion_status (token (state_of o)))));
    unfold result_of, state_of; cbn [fst snd];
    try (intros; discriminate).
  - intros _ s Hp _. right. apply passes_reached_spec in Hp.
    destruct Hp as [Hp Hh]. cbn [with_status token self_unit status].
    repeat split; assumption.
  - intros _ s _ Hh _. left. split; [assumption | reflexivity].
  - intros d s r s2 t2 Hp Hh Hne Hs E IH Hr. right.
    destruct (IH Hr) as [[I1 _] | (I1 & I2 & I3)].
    + rewrite hop_state_holder, hop_state_name in I1. contradiction.
    + rewrite hop_state_name in I2. repeat split; assumption.
Qed.

(** X8: without a pass limit the game has no end on this unit.  No run
    publishes the completion status, and a unit that holds the token never
    gets [None]: it hands the token off or raises. *)
Theorem forward_unbounded_never_completes (depth : nat) (peers : list string)
    (delay : Q) (s : State) :
  let out := forward depth peers delay None s in
  (forall t, ~ In (completion_status t) (statuses (events_of out))) /\
  (holder (token s) = name (self_unit s) -> result_of out <> Ok None).
Proof.
  cbv zeta. revert depth s.
  apply (forward_run_ind peers delay None
           (fun _ s o =>
              (forall t, ~ In (completion_status t) (statuses (events_of o))) /\
              (holder (token s) = name (self_unit s) -> result_of o <> Ok None)));
    unfold result_of, events_of; cbn [fst snd];
    try (intros d s Hp; cbn [passes_reached] in Hp; discriminate Hp).
  - intros _ s _ Hh. split; [intros t [] | intros; contradiction].
  - intros _ s _ _ _. cbn [statuses].
    split; [no_completion | intros; discriminate].
  - intros _ s _ _ _ _. rewrite statuses_hop_events.
    split; [no_completion | intros; discriminate].
  - intros s _ _ _ _. rewrite statuses_hop_events.
    split; [no_completion | intros; discriminate].
  - intros d s r s2 t2 _ Hh _ Hs _ [I1 I2].
    rewrite statuses_app, statuses_hop_events. split.
    + intros t Hc. cbn [In app] in Hc. destruct Hc as [Hc | [Hc | Hc]].
      * exact (hop_status_not_completion _ _ Hc).
      * exact (idle_status_not_completion _ Hc).
      * exact (I1 t Hc).
    + intros _. apply I2. rewrite hop_state_holder, hop_state_name. exact Hs.
Qed.

(** X9: what a hop costs.  A run that returns, with a token or with
    [None], has drawn one random number and read the clock once for each
    hop it logged, and has paused once per hop, for [delay] seconds, when
    [delay > 0] and never otherwise. *)
Theorem forward_cost_per_hop (depth : nat) (peers : list string) (delay : Q)
    (max_passes : option Z) (s : State) (v : option Token) :
  let out := forward depth peers delay max_passes s in
  let hops := length (logged (events_of out)) in
  result_of out = Ok v ->
  rand_calls (state_of out) = (rand_calls s + hops)%nat /\
  time_calls (state_of out) = (time_calls s + hops)%nat /\
  sleeps (events_of out)
  = repeat delay (if Qlt_bool 0 delay then hops else O).
Proof.
  cbv zeta. revert v. revert depth s.
  apply (forward_run_ind peers delay max_passes
           (fun _ s o =>
              forall v, result_of o = Ok v ->
              rand_calls (state_of o)
              = (rand_calls s + length (logged (events_of o)))%nat /\
              time_calls (state_of o)
              = (time_calls s + length (logged (events_of o)))%nat /\
              sleeps (events_of o)
              = repeat delay (if Qlt_bool 0 delay
                              then length (logged (events_of o)) else O)));
    unfold result_of, state_of, events_of; cbn [fst snd];
    try (intros; discriminate);
    try (intros; cbn [logged sleeps length with_status rand_calls time_calls];
         rewrite !Nat.add_0_r; destruct (Qlt_bool 0 delay); repeat split);
    try (intros; rewrite logged_hop_events, sleeps_hop_events;
         cbn [length hop_state rand_calls time_calls];
         destruct (Qlt_bool 0 delay); repeat split; lia).
  intros d s r s2 t2 _ _ _ _ _ IH v Hr.
  destruct (IH v Hr) as (I1 & I2 & I3).
  rewrite logged_app, sleeps_app, logged_hop_events, sleeps_hop_events, I1, I2, I3.
  cbn [app length hop_state rand_calls time_calls].
  destruct (Qlt_bool 0 delay); repeat split; lia.
Qed.

(** *** The handlers *)

Lemma opt_int_ne_false (a b : option Z) : opt_int_ne a b = false <-> a = b.
Proof.
  destruct a as [x |], b as [y |]; cbn [opt_int_ne]; split; intros H;
    try discriminate; try reflexivity.
  - apply negb_false_iff, Z.eqb_eq in H. congruence.
  - injection H as ->. apply negb_false_iff, Z.eqb_refl.
Qed.

Lemma dict_get_set_same (d : Dict) (k v : string) :
  dict_get (dict_set d k v) k = Some v.
Proof.
  induction d as [| [k' v'] d IH]; cbn [dict_set dict_get].
  - rewrite String.eqb_refl. reflexivity.
  - destruct (String.eqb k' k) eqn:E; cbn [dict_get]; rewrite E;
      [reflexivity | exact IH].
Qed.

Lemma dict_get_set_other (d : Dict) (k k0 v : string) :
  k0 <> k -> dict_get (dict_set d k v) k0 = dict_get d k0.
Proof.
  intros Hne.
  induction d as [| [k' v'] d IH]; cbn [dict_set dict_get].
  - apply String.eqb_neq in Hne. rewrite String.eqb_sym, Hne. reflexivity.
  - destruct (String.eqb k' k) eqn:E; cbn [dict_get].
    + apply String.eqb_eq in E. subst k'.
      assert (E0 : String.eqb k k0 = false)
        by (apply String.eqb_neq; congruence).
      rewrite E0. reflexivity.
    + destruct (String.eqb k' k0); [reflexivity | exact IH].
Qed.


Lemma peers_of_nonempty (c : Charm) (r : Relation) : peers_of c r <> [].
Proof. discriminate. Qed.

(** With a peer to select, only the lack of room for a nested call makes
    [forward] raise. *)
Lemma forward_nonempty_raises (depth : nat) (peers : list string) (delay : Q)
    (max_passes : option Z) (s : State) :
  peers <> [] ->
  forall e, result_of (forward depth peers delay max_passes s) = Raised e ->
            e = RecursionError.
Proof.
  intros Hne. revert depth s.
  apply (forward_run_ind peers delay max_passes
           (fun _ _ o => forall e, result_of o = Raised e -> e = RecursionError));
    unfold result_of; cbn [fst]; try (intros; discriminate); try congruence.
  intros d s r s2 t2 _ _ _ _ _ IH e E. exact (IH e E).
Qed.

(** A token is returned after at least one hop. *)
Lemma forward_some_progress (depth : nat) (peers : list string) (delay : Q)
    (max_passes : option Z) (s : State) :
  forall t, result_of (forward depth peers delay max_passes s) = Ok (Some t) ->
            times_passed (token s) < times_passed t.
Proof.
  revert depth s.
  apply (forward_run_ind peers delay max_passes
           (fun _ s o => forall t, result_of o = Ok (Some t) ->
                                   times_passed (token s) < times_passed t));
    unfold result_of; cbn [fst]; try (intros; discriminate).
  - intros _ s _ _ _ _ t E. injection E as <-.
    cbn [hop_state token hop_token times_passed]. lia.
  - intros d s r s2 t2 _ _ _ _ _ IH t E. specialize (IH t E).
    cbn [hop_state token hop_token times_passed] in IH. lia.
Qed.

(** The token a run leaves in the store. *)
Lemma forward_final_token (depth : nat) (peers : list string) (delay : Q)
    (max_passes : option Z) (s : State) :
  let out := forward depth peers delay max_passes s in
  message (token (state_of out)) = message (token s) /\
  times_passed (token s) <= times_passed (token (state_of out)) /\
  (In (holder (token s)) peers -> In (holder (token (state_of out))) peers) /\
  (forall v, result_of out = Ok v ->
             holder (token (state_of out)) = name (self_unit s) ->
             max_passes = Some (times_passed (token (state_of out)))) /\
  name (self_unit (state_of out)) = name (self_unit s).
Proof.
  cbv zeta. revert depth s.
  apply (forward_run_ind peers delay max_passes
           (fun _ s o =>
              message (token (state_of o)) = message (token s) /\
              times_passed (token s) <= times_passed (token (state_of o)) /\
              (In (holder (token s)) peers ->
               In (holder (token (state_of o))) peers) /\
              (forall v, result_of o = Ok v ->
                         holder (token (state_of o)) = name (self_unit s) ->
                         max_passes = Some (times_passed (token (state_of o)))) /\
              name (self_unit (state_of o)) = name (self_unit s)));
    unfold result_of, state_of; cbn [fst snd].
  - intros _ s Hp. apply passes_reached_spec in Hp. destruct Hp as [Hp _].
    cbn [with_status token self_unit name].
    repeat split; auto; lia.
  - intros _ s _ Hh. repeat split; auto; try lia. intros; contradiction.
  - intros _ s _ _ _. cbn [with_status token self_unit name].
    repeat split; auto; try lia. intros; discriminate.
  - intros _ s _ _ Hne Hs.
    cbn [hop_state token hop_token message times_passed holder self_unit name].
    repeat split; try lia.
    + intros _. apply pick_In; assumption.
    + intros; contradiction.
  - intros s _ _ Hne Hs.
    cbn [hop_state token hop_token message times_passed holder self_unit name].
    repeat split; try lia.
    + intros _. apply pick_In; assumption.
    + intros; discriminate.
  - intros d s r s2 t2 _ _ Hne Hs _ (I1 & I2 & I3 & I4 & I5).
    cbn [hop_state token hop_token message times_passed holder self_unit name]
      in I1, I2, I3, I4, I5.
    repeat split; try assumption; try lia.
    intros _. apply I3. apply pick_In; assumption.
Qed.

(** Lines 170-176 hand [forward] the state [start_state]. *)
Lemma start_engine_eq (depth : nat) (msg : string) (peers : list string)
    (delay : Q) (max_passes : option Z) (c : Charm) :
  peers <> [] ->
  start_engine depth msg peers delay max_passes (engine_state c no_token)
  = forward depth peers delay max_passes (start_state msg peers c).
Proof.
  intros Hne. destruct c as [st u pl rc tc].
  destruct (randint_index peers (rnd rc) Hne) as (H1 & H2 & H3 & H4).
  pose proof (pick_nth_error peers (mkState no_token u rc tc) Hne) as Hnth.
  unfold pick in Hnth. cbv beta iota delta [rand_calls] in Hnth.
  unfold start_state, pick, start_engine, engine_state.
  cbv beta iota zeta delta [randint list_getitem bind ret raise
    rand_calls token self_unit time_calls this_unit rand_used time_used].
  rewrite H1. cbv beta iota. rewrite H2. cbv beta iota.
  rewrite H2, H3. cbv beta iota delta [orb].
  rewrite H4, Hnth.
  cbv beta iota delta [time_time put_token rand_calls token self_unit
    time_calls app].
  destruct (forward depth peers delay max_passes _) as [[r s2] t2].
  reflexivity.
Qed.

(** X10: after [_on_config_changed] the stored bucket agrees with the
    configuration ("delay" as a number), nothing else of the charm has
    changed, and the handler is silent exactly when both values were
    already stored, in which case it leaves the charm as it was. *)
Theorem config_changed_stores_config (cfg : Config) (c : Charm) :
  let out := _on_config_changed cfg c in
  raised out = None /\
  bucket_passes (stored (after out)) = config_max_passes cfg /\
  (bucket_delay (stored (after out)) == config_delay cfg)%Q /\
  this_unit (after out) = this_unit c /\
  players (after out) = players c /\
  rand_used (after out) = rand_used c /\
  time_used (after out) = time_used c /\
  (notes out = [] <->
   config_max_passes cfg = bucket_passes (stored c) /\
   (config_delay cfg == bucket_delay (stored c))%Q) /\
  (notes out = [] -> after out = c).
Proof.
  destruct c as [[bp bd] u pl rc tc], cfg as [cp cd].
  unfold _on_config_changed.
  cbn [stored config_max_passes config_delay bucket_passes bucket_delay].
  destruct (opt_int_ne cp bp) eqn:E1;
    cbn [bucket_passes bucket_delay];
    destruct (Qeq_bool cd bd) eqn:E2;
    cbn [negb raised after notes stored bucket_passes bucket_delay
         this_unit players rand_used time_used app].
  - apply Qeq_bool_iff in E2.
    repeat split; try (symmetry; assumption); try discriminate.
    intros [H _]. apply opt_int_ne_false in H. congruence.
  - repeat split; try reflexivity; try discriminate.
    intros [H _]. apply opt_int_ne_false in H. congruence.
  - apply opt_int_ne_false in E1. apply Qeq_bool_iff in E2. subst bp.
    repeat split; try (symmetry; assumption); try assumption.
  - apply opt_int_ne_false in E1. subst bp.
    repeat split; try reflexivity; try discriminate.
    intros [_ H]. apply Qeq_bool_neq in E2. contradiction.
Qed.

(** X11: [_on_config_changed] is idempotent.  Run again with the same
    configuration it logs nothing and leaves the charm as the first run
    left it. *)
Theorem config_changed_twice (cfg : Config) (c : Charm) :
  let c1 := after (_on_config_changed cfg c) in
  _on_config_changed cfg c1 = mkOutcome None c1 [].
Proof.
  destruct c as [[bp bd] u pl rc tc], cfg as [cp cd].
  unfold _on_config_changed.
  cbn [stored config_max_passes config_delay bucket_passes bucket_delay].
  assert (R1 : opt_int_ne cp cp = false) by (apply opt_int_ne_false; reflexivity).
  assert (R2 : Qeq_bool cd cd = true) by (apply Qeq_bool_iff; reflexivity).
  destruct (opt_int_ne cp bp) eqn:E1;
    cbn [bucket_passes bucket_delay];
    destruct (Qeq_bool cd bd) eqn:E2;
    cbn [negb after stored bucket_passes bucket_delay
         this_unit players rand_used time_used app];
    rewrite ?R1, ?E1; cbn [bucket_passes bucket_delay];
    rewrite ?R2, ?E2; reflexivity.
Qed.



(** X14: what [_on_players_relation_changed] does with a token that
    decodes.  It runs the engine on the peers [this unit :: r.units] and
    leaves the charm as the engine leaves it.  If the engine returns a
    token, its encoding is put under "token" in this unit's bag of the
    relation, every other bag and every other key being kept; that token is
    held by one of the remote units, carries the message received and has
    been passed at least once more.  Otherwise the relation is untouched,
    and the only exception is [RecursionError]. *)
Theorem relation_changed_hands_off (json : Json) (depth : nat)
    (event_relation : Relation) (event_unit : string) (c : Charm)
    (text : string) (tok : Token) (r : Relation) (rest : list Relation) :
  dict_get (data event_relation event_unit) "token" = Some text ->
  text <> "" ->
  json_loads json text = Some tok ->
  players c = r :: rest ->
  let me := name (this_unit c) in
  let run := forward depth (peers_of c r) (bucket_delay (stored c))
               (bucket_passes (stored c)) (engine_state c tok) in
  let out := _on_players_relation_changed json depth event_relation event_unit c in
  fst (after out) = absorb c (state_of run) /\
  notes out = map NoteEngine (events_of run) /\
  match result_of run with
  | Ok (Some tok') =>
      raised out = None /\
      snd (after out) = write_token event_relation me (json_dumps json tok') /\
      dict_get (data (snd (after out)) me) "token" = Some (json_dumps json tok') /\
      (forall u, u <> me -> data (snd (after out)) u = data event_relation u) /\
      (forall k, k <> "token" ->
                 dict_get (data (snd (after out)) me) k
                 = dict_get (data event_relation me) k) /\
      In (holder tok') (units r) /\
      holder tok' <> me /\
      message tok' = message tok /\
      times_passed tok < times_passed tok'
  | Ok None => raised out = None /\ snd (after out) = event_relation
  | Raised e =>
      e = RecursionError /\ raised out = Some (Builtin RecursionError) /\
      snd (after out) = event_relation
  end.
Proof.
  intros Hget Hne Hload Hpl. cbv zeta.
  unfold _on_players_relation_changed, loads.
  rewrite Hget, Hload, Hpl.
  apply String.eqb_neq in Hne. rewrite Hne. cbv zeta.
  pose proof (forward_nonempty_raises depth (peers_of c r)
                (bucket_delay (stored c)) (bucket_passes (stored c))
                (engine_state c tok) (peers_of_nonempty c r)) as NR.
  pose proof (forward_some_inv depth (peers_of c r)
                (bucket_delay (stored c)) (bucket_passes (stored c))
                (engine_state c tok)) as SI.
  pose proof (forward_some_progress depth (peers_of c r)
                (bucket_delay (stored c)) (bucket_passes (stored c))
                (engine_state c tok)) as SP.
  pose proof (forward_final_token depth (peers_of c r)
                (bucket_delay (stored c)) (bucket_passes (stored c))
                (engine_state c tok)) as FT.
  cbv zeta in FT. destruct FT as (FM & _).
  destruct (forward depth (peers_of c r) (bucket_delay (stored c))
              (bucket_passes (stored c)) (engine_state c tok))
    as [[[[t' |] | e] s'] tr];
    unfold result_of, state_of, events_of in *; cbn [fst snd] in *;
    cbn [after notes raised fst snd].
  - split; [reflexivity |]. split; [reflexivity |].
    destruct (SI t' eq_refl) as (I1 & I2 & I3 & _).
    cbn [engine_state self_unit token] in I3, FM.
    split; [reflexivity |]. split; [reflexivity |].
    split.
    { unfold write_token. cbn [data]. rewrite String.eqb_refl.
      apply dict_get_set_same. }
    split.
    { intros u Hu. unfold write_token. cbn [data].
      apply String.eqb_neq in Hu. rewrite Hu. reflexivity. }
    split.
    { intros k Hk. unfold write_token. cbn [data]. rewrite String.eqb_refl.
      apply dict_get_set_other. exact Hk. }
    split.
    { destruct I2 as [I2 | I2]; [| exact I2].
      symmetry in I2. contradiction. }
    split; [exact I3 |].
    split; [rewrite I1; exact FM | exact (SP t' eq_refl)].
  - auto.
  - rewrite (NR e eq_refl). auto.
Qed.

(** A unit alone in the game whose limit, if any, is out of reach of the
    nested calls allowed. *)
Lemma forward_alone_exhausts (depth : nat) :
  forall (delay : Q) (max_passes : option Z) (s : State),
    holder (token s) = name (self_unit s) ->
    (forall n, max_passes = Some n ->
               times_passed (token s) + Z.of_nat depth < n) ->
    result_of (forward depth [name (self_unit s)] delay max_passes s)
    = Raised RecursionError.
Proof.
  induction depth as [| d IH]; intros delay max_passes s Hh Hn;
    (rewrite forward_self_hop;
     [ | destruct max_passes as [n |]; [| reflexivity];
         apply passes_reached_other_count; specialize (Hn n eq_refl); lia
       | assumption | discriminate | apply pick_single ]).
  - reflexivity.
  - set (me := name (self_unit s)) in *.
    set (s1 := hop_state [me] s).
    assert (Hh1 : holder (token s1) = name (self_unit s1))
      by (unfold s1; rewrite hop_state_holder, pick_single; reflexivity).
    specialize (IH delay max_passes s1 Hh1).
    change (name (self_unit s1)) with me in IH.
    destruct (forward d [me] delay max_passes s1) as [[r s2] t2].
    unfold result_of in *; cbn [fst] in *. apply IH.
    intros n Hmp. specialize (Hn n Hmp).
    change (times_passed (token s1)) with (times_passed (token s) + 1). lia.
Qed.

(** X15: the exceptions of [_on_start_action].  [IndexError] comes from a
    charm without a "players" relation, before anything is done;
    [RecursionError] comes from the engine, and then no relation is
    written; [ValueError] and [JSONDecodeError] are impossible. *)
Theorem start_action_raises_only (json : Json) (depth : nat)
    (param_token : string) (c : Charm) :
  let out := _on_start_action json depth param_token c in
  match raised out with
  | None => True
  | Some (Builtin IndexError) =>
      players c = [] /\ after out = c /\ notes out = [NoteInfo InfoConstructing]
  | Some (Builtin RecursionError) =>
      players (after out) = players c /\ stored (after out) = stored c
  | Some (Builtin ValueError) => False
  | Some JSONDecodeError => False
  end.
Proof.
  cbv zeta. unfold _on_start_action.
  destruct (players c) as [| r rest] eqn:Hpl.
  { cbn [raised after notes]. auto. }
  cbv zeta. rewrite start_engine_eq by apply peers_of_nonempty.
  pose proof (forward_nonempty_raises depth (peers_of c r)
                (bucket_delay (stored c)) (bucket_passes (stored c))
                (start_state param_token (peers_of c r) c)
                (peers_of_nonempty c r)) as NR.
  destruct (forward depth (peers_of c r) (bucket_delay (stored c))
              (bucket_passes (stored c))
              (start_state param_token (peers_of c r) c))
    as [[[v | e] s'] tr]; cbn [raised]; [exact I |].
  rewrite (NR e eq_refl). cbn [after absorb players stored]. auto.
Qed.

(** X16: what [_on_start_action] publishes.  When it returns, this unit's
    bag of the first "players" relation holds the encoding of a token that
    carries the message of the action, is held by one of the peers, and is
    held by this unit only if its count is the stored pass limit, that is,
    only if the game is already over. *)
Theorem start_action_publishes (json : Json) (depth : nat)
    (param_token : string) (c : Charm) (r : Relation) (rest : list Relation) :
  players c = r :: rest ->
  let me := name (this_unit c) in
  let out := _on_start_action json depth param_token c in
  raised out = None ->
  exists tok,
    players (after out) = write_token r me (json_dumps json tok) :: rest /\
    dict_get (data (write_token r me (json_dumps json tok)) me) "token"
    = Some (json_dumps json tok) /\
    message tok = param_token /\
    In (holder tok) (peers_of c r) /\
    0 <= times_passed tok /\
    (holder tok = me -> bucket_passes (stored c) = Some (times_passed tok)) /\
    stored (after out) = stored c /\
    name (this_unit (after out)) = me.
Proof.
  intros Hpl. cbv zeta. unfold _on_start_action. rewrite Hpl. cbv zeta.
  rewrite start_engine_eq by apply peers_of_nonempty.
  pose proof (forward_some_inv depth (peers_of c r)
                (bucket_delay (stored c)) (bucket_passes (stored c))
                (start_state param_token (peers_of c r) c)) as SI.
  pose proof (forward_final_token depth (peers_of c r)
                (bucket_delay (stored c)) (bucket_passes (stored c))
                (start_state param_token (peers_of c r) c)) as FT.
  cbv zeta in FT. destruct FT as (F1 & F2 & F3 & F4 & F5).
  assert (Hin : In (holder (token (start_state param_token (peers_of c r) c)))
                   (peers_of c r))
    by (apply pick_In, peers_of_nonempty).
  specialize (F3 Hin).
  destruct (forward depth (peers_of c r) (bucket_delay (stored c))
              (bucket_passes (stored c))
              (start_state param_token (peers_of c r) c))
    as [[[v | e] s'] tr];
    unfold result_of, state_of in *; cbn [fst snd] in *;
    cbn [raised]; [intros _ | discriminate].
  cbn [start_state token self_unit message times_passed name] in F1, F2, F4, F5.
  exists (token s').
  assert (W : match v with Some t => t | None => token s' end = token s').
  { destruct v as [t |]; [| reflexivity].
    destruct (SI t eq_refl) as (I1 & _). exact I1. }
  rewrite W. cbn [after players stored this_unit].
  split; [reflexivity |].
  split.
  { unfold write_token. cbn [data]. rewrite String.eqb_refl.
    apply dict_get_set_same. }
  repeat split; try assumption.
  intros Hh. exact (F4 v eq_refl Hh).
Qed.

(** X17: starting a game alone.  With no remote unit in the relation and a
    pass limit that is unset or larger than the number of nested calls
    allowed, [_on_start_action] ends in [RecursionError] and writes
    nothing to the relation. *)
Theorem start_action_alone_out_of_reach (json : Json) (depth : nat)
    (param_token : string) (c : Charm) (r : Relation) (rest : list Relation) :
  players c = r :: rest ->
  units r = [] ->
  (forall n, bucket_passes (stored c) = Some n -> Z.of_nat depth < n) ->
  let out := _on_start_action json depth param_token c in
  raised out = Some (Builtin RecursionError) /\
  players (after out) = players c.
Proof.
  intros Hpl Hu Hn. cbv zeta. unfold _on_start_action. rewrite Hpl. cbv zeta.
  rewrite start_engine_eq by apply peers_of_nonempty.
  unfold peers_of. rewrite Hu.
  pose proof (forward_alone_exhausts depth (bucket_delay (stored c))
                (bucket_passes (stored c))
                (start_state param_token [name (this_unit c)] c)) as AE.
  cbn [start_state token self_unit holder times_passed] in AE.
  rewrite pick_single in AE.
  specialize (AE eq_refl).
  assert (Hn' : forall n, bucket_passes (stored c) = Some n ->
                          0 + Z.of_nat depth < n)
    by (intros n E; specialize (Hn n E); lia).
  specialize (AE Hn').
  unfold start_state in *. rewrite pick_single.
  destruct (forward depth [name (this_unit c)] (bucket_delay (stored c))
              (bucket_passes (stored c)) _) as [[res s'] tr].
  unfold result_of in AE; cbn [fst] in AE. subst res.
  cbn [raised after absorb players]. auto.
Qed.

(** X18: a whole game played alone.  With no remote unit, a pass limit
    [n >= 0] and room for [n] nested calls, [_on_start_action] returns
    with the finished token published: held by this unit, passed [n]
    times, carrying the message, and the unit shows its completion
    status. *)
Theorem start_action_alone_completes (json : Json) (depth : nat)
    (param_token : string) (c : Charm) (r : Relation) (rest : list Relation)
    (n : Z) :
  players c = r :: rest ->
  units r = [] ->
  bucket_passes (stored c) = Some n ->
  0 <= n ->
  (Z.to_nat n <= depth)%nat ->
  let me := name (this_unit c) in
  let out := _on_start_action json depth param_token c in
  raised out = None /\
  exists tok,
    players (after out) = write_token r me (json_dumps json tok) :: rest /\
    message tok = param_token /\
    holder tok = me /\
    times_passed tok = n /\
    status (this_unit (after out)) = completion_status tok.
Proof.
  intros Hpl Hu Hb Hn Hd. cbv zeta. unfold _on_start_action. rewrite Hpl.
  cbv zeta. rewrite start_engine_eq by apply peers_of_nonempty.
  unfold peers_of. rewrite Hu, Hb.
  set (s0 := start_state param_token [name (this_unit c)] c).
  assert (Hh0 : holder (token s0) = name (self_unit s0))
    by (unfold s0; cbn [start_state token holder self_unit];
        apply pick_single).
  pose proof (forward_alone (Z.to_nat n) depth (bucket_delay (stored c)) n s0
                Hh0) as FA.
  cbv zeta in FA.
  change (name (self_unit s0)) with (name (this_unit c)) in FA.
  change (times_passed (token s0)) with 0 in FA.
  destruct FA as (R1 & R2 & R3 & R4 & R5); [lia | exact Hd |].
  pose proof (forward_final_token depth [name (this_unit c)]
                (bucket_delay (stored c)) (Some n) s0) as FT.
  cbv zeta in FT. destruct FT as (F1 & _ & F3 & F4 & _).
  change (message (token s0)) with param_token in F1.
  change (name (self_unit s0)) with (name (this_unit c)) in F4.
  destruct (forward depth [name (this_unit c)] (bucket_delay (stored c))
              (Some n) s0) as [[res s'] tr].
  unfold result_of, state_of, events_of in *; cbn [fst snd] in *.
  subst res. cbn [raised after players this_unit].
  split; [reflexivity |]. exists (token s').
  assert (Hin : In (holder (token s')) [name (this_unit c)]).
  { apply F3. rewrite Hh0. left. reflexivity. }
  assert (Hme : holder (token s') = name (this_unit c))
    by (destruct Hin as [E | []]; symmetry; exact E).
  pose proof (F4 None eq_refl Hme) as Hcount.
  repeat split; try assumption.
  injection Hcount as ->. reflexivity.
Qed.

(** *** Counters and the self-call, over whole runs *)

(** C6 (as the code has it): the tokens logged by one invocation, one per
    completed hop and self-hops included, are linked by [pass_step]:
    [times_passed] grows by exactly 1 at every hop, and [time_elapsed] does
    not decrease at a hop whose clock reading, which becomes the token's
    timestamp, is not earlier than the timestamp it replaces.  Over the
    whole invocation [times_passed] never decreases; and when the
    invocation does not end in [RecursionError], the token left in the
    store is the last one logged and [times_passed] has grown by the
    number of hops. *)
Theorem forward_counts_hops (depth : nat) (peers : list string) (delay : Q)
    (max_passes : option Z) (s : State) :
  let out := forward depth peers delay max_passes s in
  linked pass_step (token s) (logged (events_of out)) /\
  map timestamp (logged (events_of out))
    = map clk (seq (time_calls s) (length (logged (events_of out)))) /\
  times_passed (token s) <= times_passed (token (state_of out)) /\
  (result_of out <> Raised RecursionError ->
   token (state_of out) = last (logged (events_of out)) (token s) /\
   times_passed (token (state_of out))
     = times_passed (token s) + Z.of_nat (length (logged (events_of out)))).
Proof.
  cbv zeta. revert depth s.
  apply (forward_run_ind peers delay max_passes
           (fun _ s o =>
              linked pass_step (token s) (logged (events_of o)) /\
              map timestamp (logged (events_of o))
                = map clk (seq (time_calls s) (length (logged (events_of o)))) /\
              times_passed (token s) <= times_passed (token (state_of o)) /\
              (result_of o <> Raised RecursionError ->
               token (state_of o) = last (logged (events_of o)) (token s) /\
               times_passed (token (state_of o))
                 = times_passed (token s)
                   + Z.of_nat (length (logged (events_of o))))));
    unfold result_of, state_of, events_of; cbn [fst snd].
  - intros _ s _. cbn [logged linked map length seq last with_status token].
    repeat split; lia.
  - intros _ s _ _. cbn [logged linked map length seq last].
    repeat split; lia.
  - intros _ s _ _ _. cbn [logged linked map length seq last with_status token].
    repeat split; lia.
  - intros _ s _ _ _ _. rewrite logged_hop_events.
    cbn [linked map length seq last].
    split; [split; [apply pass_step_hop | exact I] |].
    split; [reflexivity |].
    cbn [hop_state token hop_token times_passed].
    split; [lia |]. intros _. split; [reflexivity | lia].
  - intros s _ _ _ _. rewrite logged_hop_events.
    cbn [linked map length seq last].
    split; [split; [apply pass_step_hop | exact I] |].
    split; [reflexivity |].
    cbn [hop_state token hop_token times_passed].
    split; [lia |]. intros H. contradiction H. reflexivity.
  - intros d s r s2 t2 _ _ _ _ _ (I1 & I2 & I3 & I4).
    rewrite logged_app, logged_hop_events.
    cbn [app linked map length seq]. rewrite last_cons.
    cbn [hop_state token hop_token times_passed time_calls] in I2, I3, I4.
    split; [split; [apply pass_step_hop | exact I1] |].
    split; [f_equal; exact I2 |].
    split; [lia |].
    intros Hr. destruct (I4 Hr) as [J1 J2].
    split; [exact J1 | lia].
Qed.


(** C4 (as the code has it): line 63 is a recursive call, so every
    self-hop of a run needs a call frame of its own.  A unit alone in the
    game whose pass limit, if any, is more passes away than nested calls
    are allowed ends in [RecursionError]. *)
Theorem forward_self_hops_nest (depth : nat) (delay : Q)
    (max_passes : option Z) (s : State) :
  holder (token s) = name (self_unit s) ->
  (forall n, max_passes = Some n ->
             times_passed (token s) + Z.of_nat depth < n) ->
  result_of (forward depth [name (self_unit s)] delay max_passes s)
  = Raised RecursionError.
Proof.
  revert s. induction depth as [| d IH]; intros s Hh Hn.
  - rewrite forward_self_hop;
      [ reflexivity | | assumption | discriminate | apply pick_single ].
    destruct max_passes as [n |]; [| reflexivity].
    apply passes_reached_other_count. specialize (Hn n eq_refl). lia.
  - rewrite forward_self_hop;
      [ | | assumption | discriminate | apply pick_single ].
    + set (me := name (self_unit s)) in *.
      set (s1 := hop_state [me] s).
      assert (Hh1 : holder (token s1) = name (self_unit s1))
        by (unfold s1; rewrite hop_state_holder, pick_single; reflexivity).
      specialize (IH s1 Hh1).
      change (name (self_unit s1)) with me in IH.
      destruct (forward d [me] delay max_passes s1) as [[r s2] t2].
      unfold result_of in *; cbn [fst] in *. apply IH.
      intros n Hmp. specialize (Hn n Hmp).
      change (times_passed (token s1)) with (times_passed (token s) + 1). lia.
    + destruct max_passes as [n |]; [| reflexivity].
      apply passes_reached_other_count. specialize (Hn n eq_refl). lia.
Qed.

End Engine.

(** ** The scenarios, run *)

(** Scenario 2: the pass limit is reached on "A". *)
Lemma forward_max_passes_reached_witness :
  times_passed (token (received "A" 1 1000)) = 1 /\
  holder (token (received "A" 1 1000)) = name (self_unit (received "A" 1 1000)) /\
  forward (always 1) (ticking 1000) 0 ["A"; "B"] 0 (Some 1) (received "A" 1 1000)
  = (Ok None,
     mkState (mkToken "hi" "A" 1 0 1000)
       (mkUnit "A" (ActiveStatus
          "Maximum passes reached. Time to completion is 0.00 seconds."))
       0 0,
     [EvStatus (ActiveStatus
        "Maximum passes reached. Time to completion is 0.00 seconds.")]).
Proof.
  split; [reflexivity | split; [reflexivity |]].
  apply (forward_max_passes_reached (always 1) (ticking 1000) 0 ["A"; "B"] 0 1
           (received "A" 1 1000)); reflexivity.
Defined.

(** Scenario 3: the token is held by "B". *)
Lemma forward_not_holder_witness :
  holder (token (received "B" 0 1000)) <> name (self_unit (received "B" 0 1000)) /\
  forward (always 0) (ticking 1000) 0 ["A"; "B"] 0 None (received "B" 0 1000)
  = (Ok None, received "B" 0 1000, []).
Proof.
  assert (H : holder (token (received "B" 0 1000))
              <> name (self_unit (received "B" 0 1000)))
    by (simpl; discriminate).
  split; [exact H |].
  exact (forward_not_holder (always 0) (ticking 1000) 0 ["A"; "B"] 0 None
           (received "B" 0 1000) H).
Defined.

(** Scenario 4: "A" alone, three passes to make. *)
Lemma forward_self_loop_converges_witness :
  holder (token (received "A" 0 1000)) = name (self_unit (received "A" 0 1000)) /\
  times_passed (token (received "A" 0 1000)) < 3 /\
  (Z.to_nat (3 - times_passed (token (received "A" 0 1000))) <= 3)%nat /\
  let out := forward (always 7) (ticking 1000) 3 ["A"] 0 (Some 3)
               (received "A" 0 1000) in
  result_of out = Ok None /\
  map times_passed (logged (events_of out)) = [1; 2; 3] /\
  Forall (fun t => holder t = "A") (logged (events_of out)) /\
  times_passed (token (state_of out)) = 3 /\
  status (self_unit (state_of out)) = completion_status (token (state_of out)).
Proof.
  split; [reflexivity | split; [reflexivity | split; [simpl; lia |]]].
  apply (forward_self_loop_converges (always 7) (ticking 1000) 3 0 3
           (received "A" 0 1000)); [reflexivity | reflexivity | simpl; lia].
Defined.

(** Scenario 4 again, with the nested calls counted: without room for
    them the three self-hops do not complete, with room for three they do.
    An iterative loop would not tell the two apart. *)
Lemma self_hops_grow_the_stack :
  result_of (forward (always 7) (ticking 1000) 0 ["A"] 0 (Some 3)
               (received "A" 0 1000)) = Raised RecursionError /\
  result_of (forward (always 7) (ticking 1000) 2 ["A"] 0 (Some 3)
               (received "A" 0 1000)) = Raised RecursionError /\
  result_of (forward (always 7) (ticking 1000) 3 ["A"] 0 (Some 3)
               (received "A" 0 1000)) = Ok None.
Proof. repeat split; reflexivity. Qed.

Lemma forward_self_hops_nest_witness :
  holder (token (received "A" 0 1000)) = name (self_unit (received "A" 0 1000)) /\
  (forall n, Some 3 = Some n ->
             times_passed (token (received "A" 0 1000)) + Z.of_nat 2 < n) /\
  result_of (forward (always 7) (ticking 1000) 2 ["A"] 0 (Some 3)
               (received "A" 0 1000))
  = Raised RecursionError.
Proof.
  assert (H : forall n, Some 3 = Some n ->
                        times_passed (token (received "A" 0 1000)) + Z.of_nat 2 < n)
    by (intros n E; injection E as <-; reflexivity).
  split; [reflexivity | split; [exact H |]].
  exact (forward_self_hops_nest (always 7) (ticking 1000) 2 0 (Some 3)
           (received "A" 0 1000) eq_refl H).
Defined.

(** Scenario 4 with room for two nested calls only: the unit holds the
    token, has fewer passes than the limit, and [forward] does not return
    [None]. *)
Lemma self_loop_out_of_room :
  ~ (forall (depth : nat) (delay : Q) (n : Z) (s : State),
        holder (token s) = name (self_unit s) ->
        times_passed (token s) < n ->
        result_of (forward (always 7) (ticking 1000) depth
                     [name (self_unit s)] delay (Some n) s) = Ok None).
Proof.
  intros H.
  specialize (H 2%nat 0%Q 3 (received "A" 0 1000) eq_refl eq_refl).
  vm_compute in H. discriminate H.
Qed.

(** Scenario 5 with a token held by "B": the empty peer list goes
    unnoticed and [forward] returns [None]. *)
Lemma empty_peers_not_holder_returns :
  forward (always 0) (ticking 1000) 0 [] 0 None (received "B" 0 1000)
  = (Ok None, received "B" 0 1000, []) /\
  ~ (exists e, result_of (forward (always 0) (ticking 1000) 0 [] 0 None
                            (received "B" 0 1000)) = Raised e).
Proof.
  split; [reflexivity |]. intros [e H]. discriminate H.
Qed.

(** Scenario 1 with a token stamped 1000 s ahead of the local clock: the
    hop to "B" completes and [time_elapsed] goes from 0 to -1000. *)
Lemma hop_can_decrease_time_elapsed :
  let s := received "A" 0 2000 in
  let out := forward (always 1) (ticking 1000) 0 ["A"; "B"] 0 None s in
  result_of out = Ok (Some (mkToken "hi" "B" 1 (0 + (1000 - 2000))%Q 1000)) /\
  logged (events_of out) = [token (state_of out)] /\
  times_passed (token (state_of out)) = times_passed (token s) + 1 /\
  (time_elapsed (token (state_of out)) < time_elapsed (token s))%Q /\
  ~ (time_elapsed (token s) <= time_elapsed (token (state_of out)))%Q.
Proof.
  cbv zeta. repeat split; try reflexivity.
  intros H. vm_compute in H. apply H. reflexivity.
Qed.


(** Scenario 1: "A" holds a fresh token and the draw selects "B". *)
Lemma forward_returned_holder_witness :
  let t := mkToken "hi" "B" 1 (0 + (1000 - 1000))%Q 1000 in
  let s' := mkState t (mkUnit "A" idle_status) 1 1 in
  let tr := [EvStatus (ActiveStatus "M: hi, H: A, P: 0, T: 0.00");
             EvStatus idle_status; EvLog t] in
  forward (always 1) (ticking 1000) 0 ["A"; "B"] 0 None (received "A" 0 1000)
  = (Ok (Some t), s', tr) /\
  In (holder t) ["A"; "B"] /\
  holder t <> name (self_unit (received "A" 0 1000)) /\
  t = token s'.
Proof.
  cbv zeta. split; [reflexivity |].
  exact (forward_returned_holder (always 1) (ticking 1000) 0 ["A"; "B"] 0 None
           (received "A" 0 1000) _ _ _ eq_refl).
Defined.

(** Scenario 1 with a token stamped 10 s before the local clock reading:
    one hop to "B", and [time_elapsed] goes from 0 to 10. *)
Lemma forward_counts_hops_witness :
  let s := received "A" 0 990 in
  let out := forward (always 1) (ticking 1000) 0 ["A"; "B"] 0 None s in
  (linked pass_step (token s) (logged (events_of out)) /\
   map timestamp (logged (events_of out))
     = map (ticking 1000) (seq (time_calls s) (length (logged (events_of out)))) /\
   times_passed (token s) <= times_passed (token (state_of out)) /\
   (result_of out <> Raised RecursionError ->
    token (state_of out) = last (logged (events_of out)) (token s) /\
    times_passed (token (state_of out))
      = times_passed (token s) + Z.of_nat (length (logged (events_of out))))) /\
  result_of out <> Raised RecursionError /\
  (timestamp (token s) <= timestamp (token (state_of out)))%Q /\
  (time_elapsed (token s) <= time_elapsed (token (state_of out)))%Q.
Proof.
  cbv zeta. split; [| split; [| split]].
  - exact (forward_counts_hops (always 1) (ticking 1000) 0 ["A"; "B"] 0 None
             (received "A" 0 990)).
  - vm_compute. discriminate.
  - vm_compute. discriminate.
  - vm_compute. discriminate.
Defined.

(** ** More runs *)

(** "A" alone, three passes to make: the count stops at the limit. *)
Lemma forward_stays_within_limit_witness :
  times_passed (token (received "A" 0 1000)) <= 3 /\
  let out := forward (always 7) (ticking 1000) 5 ["A"] 0 (Some 3)
               (received "A" 0 1000) in
  times_passed (token (state_of out)) <= 3 /\
  Forall (fun t => times_passed t <= 3) (logged (events_of out)).
Proof.
  assert (H : times_passed (token (received "A" 0 1000)) <= 3)
    by (simpl; lia).
  split; [exact H |].
  exact (forward_stays_within_limit (always 7) (ticking 1000) 5 ["A"] 0 3
           (received "A" 0 1000) H).
Defined.

(** The same game with room for three nested calls and with room for
    seven. *)
Lemma forward_depth_monotone_witness :
  result_of (forward (always 7) (ticking 1000) 3 ["A"] 0 (Some 3)
               (received "A" 0 1000)) <> Raised RecursionError /\
  (3 <= 7)%nat /\
  forward (always 7) (ticking 1000) 7 ["A"] 0 (Some 3) (received "A" 0 1000)
  = forward (always 7) (ticking 1000) 3 ["A"] 0 (Some 3) (received "A" 0 1000).
Proof.
  assert (H : result_of (forward (always 7) (ticking 1000) 3 ["A"] 0 (Some 3)
                           (received "A" 0 1000)) <> Raised RecursionError)
    by (vm_compute; discriminate).
  assert (L : (3 <= 7)%nat) by lia.
  split; [exact H | split; [exact L |]].
  exact (forward_depth_monotone (always 7) (ticking 1000) 3 7 ["A"] 0 (Some 3)
           (received "A" 0 1000) H L).
Defined.

(** Scenario 1, then a second delivery of the token just handed to "B". *)
Lemma forward_handed_off_then_ignored_witness :
  result_of (forward (always 1) (ticking 1000) 0 ["A"; "B"] 0 None
               (received "A" 0 1000))
  = Ok (Some (mkToken "hi" "B" 1 (0 + (1000 - 1000))%Q 1000)) /\
  let s' := state_of (forward (always 1) (ticking 1000) 0 ["A"; "B"] 0 None
                        (received "A" 0 1000)) in
  forward (always 1) (ticking 1000) 4 ["A"; "B"; "C"] (1 # 2) (Some 1) s'
  = (Ok None, s', []).
Proof.
  split; [reflexivity |].
  exact (forward_handed_off_then_ignored (always 1) (ticking 1000) 0 4
           ["A"; "B"] ["A"; "B"; "C"] 0 (1 # 2) None (Some 1)
           (received "A" 0 1000) _ eq_refl).
Defined.

(** Scenario 4: the [None] of a finished game. *)
Lemma forward_none_means_witness :
  let s := received "A" 0 1000 in
  let out := forward (always 7) (ticking 1000) 3 ["A"] 0 (Some 3) s in
  result_of out = Ok None /\
  ((holder (token s) <> name (self_unit s) /\ out = (Ok None, s, [])) \/
   (Some 3 = Some (times_passed (token (state_of out))) /\
    holder (token (state_of out)) = name (self_unit s) /\
    status (self_unit (state_of out)) = completion_status (token (state_of out)))).
Proof.
  cbv zeta. split; [reflexivity |].
  exact (forward_none_means (always 7) (ticking 1000) 3 ["A"] 0 (Some 3)
           (received "A" 0 1000) eq_refl).
Defined.


Lemma relation_changed_hands_off_witness :
  let er := sample_relation ["B"] "A" in
  let c := sample_charm None er in
  let tok := mkToken "hi" "A" 0 0 1000 in
  dict_get (data er "B") "token" = Some "A" /\
  "A" <> "" /\
  json_loads toy_json "A" = Some tok /\
  players c = [er] /\
  let out := _on_players_relation_changed (always 1) (ticking 1000) toy_json 0
               er "B" c in
  raised out = None /\
  dict_get (data (snd (after out)) "A") "token" = Some "B" /\
  data (snd (after out)) "B" = data er "B".
Proof.
  cbv zeta.
  assert (H2 : "A" <> "") by discriminate.
  split; [reflexivity | split; [exact H2 | split; [reflexivity |]]].
  split; [reflexivity |].
  pose proof (relation_changed_hands_off (always 1) (ticking 1000) toy_json 0
                (sample_relation ["B"] "A") "B"
                (sample_charm None (sample_relation ["B"] "A"))
                "A" (mkToken "hi" "A" 0 0 1000)
                (sample_relation ["B"] "A") []
                eq_refl H2 eq_refl eq_refl) as P.
  cbv zeta in P. destruct P as (_ & _ & P).
  change (result_of
            (forward (always 1) (ticking 1000) 0
               (peers_of (sample_charm None (sample_relation ["B"] "A"))
                  (sample_relation ["B"] "A"))
               (bucket_delay (stored (sample_charm None (sample_relation ["B"] "A"))))
               (bucket_passes (stored (sample_charm None (sample_relation ["B"] "A"))))
               (engine_state (sample_charm None (sample_relation ["B"] "A"))
                  (mkToken "hi" "A" 0 0 1000))))
    with (@Ok (option Token) (Some (mkToken "hi" "B" 1 (0 + (1000 - 1000))%Q 1000)))
    in P.
  cbv beta iota in P.
  destruct P as (P1 & _ & P3 & P4 & _).
  split; [exact P1 | split; [exact P3 |]].
  apply P4. discriminate.
Defined.

(** The action on "A" with peers "A" and "B": the draw selects "B" as the
    first holder, and the fresh token is published for it. *)
Lemma start_action_publishes_witness :
  let r := sample_relation ["B"] "" in
  let c := sample_charm None r in
  players c = [r] /\
  let out := _on_start_action (always 1) (ticking 1000) toy_json 0 "hi" c in
  raised out = None /\
  exists tok,
    players (after out) = [write_token r "A" (json_dumps toy_json tok)] /\
    dict_get (data (write_token r "A" (json_dumps toy_json tok)) "A") "token"
    = Some (json_dumps toy_json tok) /\
    message tok = "hi" /\
    In (holder tok) (peers_of c r) /\
    0 <= times_passed tok /\
    (holder tok = "A" -> bucket_passes (stored c) = Some (times_passed tok)) /\
    stored (after out) = stored c /\
    name (this_unit (after out)) = "A".
Proof.
  cbv zeta. split; [reflexivity |]. split; [reflexivity |].
  exact (start_action_publishes (always 1) (ticking 1000) toy_json 0 "hi"
           (sample_charm None (sample_relation ["B"] ""))
           (sample_relation ["B"] "") [] eq_refl eq_refl).
Defined.

(** The action on "A" alone, without a pass limit. *)
Lemma start_action_alone_out_of_reach_witness :
  let r := sample_relation [] "" in
  let c := sample_charm None r in
  players c = [r] /\
  units r = [] /\
  (forall n, bucket_passes (stored c) = Some n -> Z.of_nat 2 < n) /\
  let out := _on_start_action (always 0) (ticking 1000) toy_json 2 "hi" c in
  raised out = Some (Builtin RecursionError) /\
  players (after out) = players c.
Proof.
  cbv zeta.
  assert (H : forall n,
             bucket_passes (stored (sample_charm None (sample_relation [] "")))
             = Some n -> Z.of_nat 2 < n)
    by (intros n E; discriminate E).
  split; [reflexivity | split; [reflexivity | split; [exact H |]]].
  exact (start_action_alone_out_of_reach (always 0) (ticking 1000) toy_json 2
           "hi" (sample_charm None (sample_relation [] ""))
           (sample_relation [] "") [] eq_refl eq_refl H).
Defined.

(** The action on "A" alone, with a limit of two passes. *)
Lemma start_action_alone_completes_witness :
  let r := sample_relation [] "" in
  let c := sample_charm (Some 2) r in
  players c = [r] /\
  units r = [] /\
  bucket_passes (stored c) = Some 2 /\
  0 <= 2 /\
  (Z.to_nat 2 <= 2)%nat /\
  let out := _on_start_action (always 0) (ticking 1000) toy_json 2 "hi" c in
  raised out = None /\
  exists tok,
    players (after out) = [write_token r "A" (json_dumps toy_json tok)] /\
    message tok = "hi" /\
    holder tok = "A" /\
    times_passed tok = 2 /\
    status (this_unit (after out)) = completion_status tok.
Proof.
  cbv zeta.
  assert (H4 : 0 <= 2) by lia.
  assert (H5 : (Z.to_nat 2 <= 2)%nat) by (simpl; lia).
  split; [reflexivity | split; [reflexivity | split; [reflexivity |]]].
  split; [exact H4 | split; [exact H5 |]].
  exact (start_action_alone_completes (always 0) (ticking 1000) toy_json 2 "hi"
           (sample_charm (Some 2) (sample_relation [] ""))
           (sample_relation [] "") [] 2 eq_refl eq_refl eq_refl H4 H5).
Defined.

(** Scenario 4 with a delay of half a second: three hops, three draws,
    three clock readings, three pauses. *)
Lemma forward_cost_per_hop_witness :
  let out := forward (always 7) (ticking 1000) 3 ["A"] (1 # 2) (Some 3)
               (received "A" 0 1000) in
  result_of out = Ok None /\
  rand_calls (state_of out) = 3%nat /\
  time_calls (state_of out) = 3%nat /\
  sleeps (events_of out) = [1 # 2; 1 # 2; 1 # 2]%Q.
Proof.
  cbv zeta. split; [reflexivity |].
  exact (forward_cost_per_hop (always 7) (ticking 1000) 3 ["A"] (1 # 2) (Some 3)
           (received "A" 0 1000) None eq_refl).
Defined.


(** ** The round trip through [json] *)

(** *** Strings *)






(** *** Digits *)





















Lemma digits_of_0 : digits_of 0 = "0".
Proof. reflexivity. Qed.




(** *** Numbers *)












(** *** Values *)







Lemma find_scale_complete (fuel k : nat) (d : Z) (j : nat) :
  (10 ^ Z.of_nat (k + j)) mod d = 0 -> (j <= fuel)%nat ->
  find_scale fuel k d <> None.
Proof.
  revert k j; induction fuel as [|f IH]; intros k j H L; cbn [find_scale];
    destruct ((10 ^ Z.of_nat k) mod d =? 0) eqn:E; try discriminate.
  - replace j with 0%nat in H by lia. rewrite Nat.add_0_r in H.
    apply Z.eqb_neq in E. contradiction.
  - destruct j as [|j].
    + rewrite Nat.add_0_r in H. apply Z.eqb_neq in E. contradiction.
    + apply (IH (S k) j); [|lia].
      now replace (S k + j)%nat with (k + S j)%nat by lia.
Qed.


(** *** Floats *)





(** *** Values, members, objects *)









(** Every dyadic rational, hence every finite binary64, is a decimal
    fraction. *)
Lemma dyadic_is_decimal (n : Z) (k : nat) (d : positive) :
  Z.pos d = 2 ^ Z.of_nat k -> decimal (n # d).
Proof.
  intros Hd. unfold decimal, decimal_of. cbn [Qnum Qden].
  destruct (find_scale (Z.to_nat (Z.log2 (Z.pos d))) 0 (Z.pos d)) eqn:F;
    [discriminate|].
  exfalso. revert F. apply (find_scale_complete _ 0 _ k).
  - rewrite Hd. cbn [Nat.add].
    change 10 with (5 * 2). rewrite Z.pow_mul_l.
    apply Z.mod_mul. apply Z.pow_nonzero; lia.
  - rewrite Hd, Z.log2_pow2 by lia. lia.
Qed.


